(** * Just-Memory: schema migration and schema check

    A shallow embedding of [migrate_db.py] and [check_schema.py] over a
    model of the SQLite store the two scripts talk to, and the properties
    of the migration proved about it.

    The store is a list of tables in catalog order, each with its columns
    and its rows.  The statements the scripts execute are modelled by what
    SQLite documents for them:
    - [SELECT name FROM sqlite_master WHERE type='table'] lists the names;
    - [PRAGMA table_info(t)] lists the columns of [t], and nothing when
      there is no such table;
    - [ALTER TABLE t ADD COLUMN c ty DEFAULT d] appends a column, every
      existing row reading [d] for it, and is rejected when [t] has a
      column of that name already;
    - [SELECT COUNT( * ) FROM t] counts the rows and fails when there is
      no such table.
    The engine also resolves names that the table listing does not show,
    a view or one of the schema tables: [PRAGMA table_info] and
    [SELECT COUNT( * )] answer for those as well.  What they answer is
    computed by the engine from the tables, and is taken here as given.
    SQLite compares table and column names without regard to ASCII case;
    Python compares strings exactly.  The driver runs a schema change as
    it is executed, outside any transaction, so that [commit] finds
    nothing pending; the statements are kept in a journal, in the order
    the script issues them.

    The [sqlite3] driver raises an exception for a statement that fails,
    and neither script catches any: a run is a computation in a state and
    error monad over the connection.  Failures of the environment (the
    file cannot be opened, is locked or is read-only) are not modelled. *)

From Stdlib Require Import String Ascii List ZArith Bool Lia.
Import ListNotations.
Local Open Scope string_scope.
Local Open Scope list_scope.

(** ** The store *)

Inductive Value : Type :=
| VNull
| VInt (z : Z)
| VText (s : string).

(** One row of [PRAGMA table_info]: name ([col[1]]), declared type
    ([col[2]]), the NOT NULL flag ([col[3]]), the default ([col[4]]) and
    the primary-key flag. *)
Record Column : Type := mkColumn {
  col_name : string;
  col_type : string;
  col_notnull : bool;
  col_dflt : option Value;
  col_pk : bool
}.

Definition Row : Type := list Value.

Record Table : Type := mkTable {
  tbl_name : string;
  tbl_cols : list Column;
  tbl_rows : list Row
}.

Definition Db : Type := list Table.

(** *** Names as SQLite compares them *)

Definition lower (a : ascii) : ascii :=
  let n := nat_of_ascii a in
  if (65 <=? n)%nat && (n <=? 90)%nat then ascii_of_nat (n + 32) else a.

Fixpoint fold_case (s : string) : string :=
  match s with
  | EmptyString => EmptyString
  | String a r => String (lower a) (fold_case r)
  end.

Definition same_name (a b : string) : bool :=
  String.eqb (fold_case a) (fold_case b).

(** The table a statement's table name resolves to. *)
Fixpoint find_table (name : string) (d : Db) : option Table :=
  match d with
  | [] => None
  | t :: d' => if same_name (tbl_name t) name then Some t else find_table name d'
  end.

Definition has_column (name : string) (cols : list Column) : bool :=
  existsb (fun c => same_name (col_name c) name) cols.

Definition default_value (c : Column) : Value :=
  match col_dflt c with
  | Some v => v
  | None => VNull
  end.

Definition add_column (c : Column) (t : Table) : Table :=
  {| tbl_name := tbl_name t;
     tbl_cols := tbl_cols t ++ [c];
     tbl_rows := map (fun r => r ++ [default_value c]) (tbl_rows t) |}.

(** Replace the table [name] resolves to by its image under [f]. *)
Fixpoint update_table (name : string) (f : Table -> Table) (d : Db) : Db :=
  match d with
  | [] => []
  | t :: d' =>
      if same_name (tbl_name t) name then f t :: d'
      else t :: update_table name f d'
  end.

(** The value a row holds for the column a name resolves to. *)
Fixpoint read_column (cols : list Column) (r : Row) (name : string)
  : option Value :=
  match cols, r with
  | c :: cols', v :: r' =>
      if same_name (col_name c) name then Some v else read_column cols' r' name
  | _, _ => None
  end.

Definition schema (d : Db) : list (string * list Column) :=
  map (fun t => (tbl_name t, tbl_cols t)) d.

(** ** The connection *)

Inductive Stmt : Type :=
| SelectTables
| TableInfo (table : string)
| AlterAddColumn (table : string) (c : Column)
| Commit
| CountRows (table : string).

(** What the scripts print, one constructor per [print] call. *)
Inductive Line : Type :=
| LTables (names : list string)        (* Tables: [...] *)
| LAdding (table : string)             (* Adding project_id to {table}... *)
| LDone                                (*   Done! *)
| LExists (table : string)             (* {table}: project_id exists *)
| LAbsent (table : string)             (* {table}: table does not exist ... *)
| LComplete                            (* All migrations complete! *)
| LHeader (table : string)             (* {table}: *)
| LColumn (name type : string) (nullable : bool) (dflt : option Value)
| LTotal (n : Z).                      (* Total memories: {n} *)

(** The exceptions of the driver: [sqlite3.OperationalError] for a
    statement the engine fails, [sqlite3.ProgrammingError] for a statement
    on a closed connection. *)
Inductive Error : Type :=
| NoSuchTable (table : string)
| SchemaChangeRejected (table : string) (column : string)
| SyntaxError (text : string)
| ClosedConnection.

Record Conn : Type := mkConn {
  db : Db;
  is_open : bool;
  journal : list Stmt;
  stdout : list Line
}.

Definition connect (d : Db) : Conn :=
  {| db := d; is_open := true; journal := []; stdout := [] |}.

Definition log_stmt (s : Stmt) (c : Conn) : Conn :=
  {| db := db c; is_open := is_open c;
     journal := journal c ++ [s]; stdout := stdout c |}.

Definition put_line (l : Line) (c : Conn) : Conn :=
  {| db := db c; is_open := is_open c;
     journal := journal c; stdout := stdout c ++ [l] |}.

Definition set_db (d : Db) (c : Conn) : Conn :=
  {| db := d; is_open := is_open c;
     journal := journal c; stdout := stdout c |}.

Definition shut (c : Conn) : Conn :=
  {| db := db c; is_open := false;
     journal := journal c; stdout := stdout c |}.

(** ** Computations on a connection *)

Inductive Result (A : Type) : Type :=
| Ok (a : A)
| Raise (e : Error).
Arguments Ok {A} a.
Arguments Raise {A} e.

(** A relation of the store that is not one of its tables, by what the
    engine answers for it: the columns [PRAGMA table_info] lists and the
    number [SELECT COUNT( * )] gives, or the error when the query behind
    the relation fails. *)
Record Relation : Type := mkRelation {
  rel_columns : Result (list Column);
  rel_count : Result Z
}.

Definition M (A : Type) : Type := Conn -> Result A * Conn.

Definition ret {A} (a : A) : M A := fun c => (Ok a, c).

Definition bind {A B} (m : M A) (f : A -> M B) : M B :=
  fun c =>
    match m c with
    | (Ok a, c') => f a c'
    | (Raise e, c') => (Raise e, c')
    end.

Definition raise {A} (e : Error) : M A := fun c => (Raise e, c).

Notation "x <- m ;; k" := (bind m (fun x => k))
  (at level 61, m at next level, right associativity).
Notation "m ;; k" := (bind m (fun _ => k))
  (at level 61, right associativity).

(** Python's [for x in l: body]. *)
Fixpoint for_each {A} (l : list A) (body : A -> M unit) : M unit :=
  match l with
  | [] => ret tt
  | x :: l' => body x ;; for_each l' body
  end.

Definition print (l : Line) : M unit := fun c => (Ok tt, put_line l c).

(** [cursor.execute]: the statement reaches the engine only on an open
    connection. *)
Definition execute (s : Stmt) : M unit :=
  fun c => if is_open c then (Ok tt, log_stmt s c) else (Raise ClosedConnection, c).

Definition select_tables : M (list string) :=
  execute SelectTables ;;
  fun c => (Ok (map tbl_name (db c)), c).

(** [PRAGMA table_info] as the tables of the catalog answer it. *)
Definition table_info (table : string) : M (list Column) :=
  execute (TableInfo table) ;;
  fun c =>
    match find_table table (db c) with
    | Some t => (Ok (tbl_cols t), c)
    | None => (Ok [], c)
    end.

(** [SELECT COUNT( * )] as the tables of the catalog answer it. *)
Definition count_rows (table : string) : M Z :=
  execute (CountRows table) ;;
  fun c =>
    match find_table table (db c) with
    | Some t => (Ok (Z.of_nat (length (tbl_rows t))), c)
    | None => (Raise (NoSuchTable table), c)
    end.

Definition commit : M unit := execute Commit.

Definition close : M unit := fun c => (Ok tt, shut c).

Section Engine.

(** Any further ground on which the engine refuses to add a column to a
    table, decided from the table's name and columns (a virtual table, the
    column limit). *)
Variable refuses : string -> list Column -> bool.

(** How the engine reads a table name spliced bare into a statement's
    text: the name it takes it for, or [None] when the text does not
    parse. *)
Variable bare : string -> option string.

(** The relations the engine resolves besides the tables of the catalog,
    the views and the schema tables, on a store with the tables [d]. *)
Variable views : string -> Db -> option Relation.

(** [PRAGMA table_info(name)]: the table the name resolves to answers,
    and a relation that is not a table when no table has that name. *)
Definition pragma_table_info (name : string) : M (list Column) :=
  fun c =>
    match find_table name (db c), views name (db c) with
    | None, Some r =>
        (execute (TableInfo name) ;; fun c' => (rel_columns r, c')) c
    | _, _ => table_info name c
    end.

(** [SELECT COUNT( * ) FROM name], resolved in the same way. *)
Definition select_count (name : string) : M Z :=
  fun c =>
    match find_table name (db c), views name (db c) with
    | None, Some r =>
        (execute (CountRows name) ;; fun c' => (rel_count r, c')) c
    | _, _ => count_rows name c
    end.

Definition rejects (c : Column) (t : Table) : bool :=
  has_column (col_name c) (tbl_cols t) || refuses (tbl_name t) (tbl_cols t).

Definition alter_add_column (table : string) (col : Column) : M unit :=
  execute (AlterAddColumn table col) ;;
  fun c =>
    match find_table table (db c) with
    | None => (Raise (NoSuchTable table), c)
    | Some t =>
        if rejects col t
        then (Raise (SchemaChangeRejected table (col_name col)), c)
        else (Ok tt, set_db (update_table table (add_column col) (db c)) c)
    end.

(** ** migrate_db.py *)

Definition tables_needing_project_id : list string :=
  ["memories"; "entities"; "edges"; "scratchpad"; "entity_relations"].

(** [project_id TEXT DEFAULT 'global'] *)
Definition project_id : Column :=
  {| col_name := "project_id"; col_type := "TEXT"; col_notnull := false;
     col_dflt := Some (VText "global"); col_pk := false |}.

(** Python's [x in l] on strings. *)
Definition mem (x : string) (l : list string) : bool :=
  existsb (String.eqb x) l.

(** The body of the loop at lines 25-38.  The column listing is asked
    for a name of the table listing, which a table answers. *)
Definition migrate_table (tables : list string) (table : string) : M unit :=
  if mem table tables then
    info <- table_info table ;;
    let cols := map col_name info in
    if negb (mem "project_id" cols) then
      print (LAdding table) ;;
      alter_add_column table project_id ;;
      commit ;;
      print LDone
    else
      print (LExists table)
  else
    print (LAbsent table).

(** The run up to and including the first [n] requirements. *)
Definition migrate_upto (n : nat) : M unit :=
  tables <- select_tables ;;
  print (LTables tables) ;;
  for_each (firstn n tables_needing_project_id) (migrate_table tables).

Definition migrate_conn : M unit :=
  tables <- select_tables ;;
  print (LTables tables) ;;
  for_each tables_needing_project_id (migrate_table tables) ;;
  close ;;
  print LComplete.

Definition migrate (store : Db) : Result unit * Conn :=
  migrate_conn (connect store).

(** ** check_schema.py *)

Definition describe_table (table : string) : M unit :=
  columns <- match bare table with
             | Some name => pragma_table_info name
             | None =>
                 execute (TableInfo table) ;; raise (SyntaxError table)
             end ;;
  print (LHeader table) ;;
  for_each columns
    (fun col => print (LColumn (col_name col) (col_type col)
                               (negb (col_notnull col)) (col_dflt col))).

(** Lines 8-19: the table list and the schema of each table. *)
Definition describe_tables : M unit :=
  tables <- select_tables ;;
  print (LTables tables) ;;
  for_each tables describe_table.

(** Lines 21-23. *)
Definition count_memories : M unit :=
  n <- select_count "memories" ;;
  print (LTotal n).

Definition check_schema (store : Db) : Result unit * Conn :=
  (describe_tables ;; count_memories ;; close) (connect store).

(** ** The report of a run *)

Inductive Outcome : Type :=
| TableAbsent
| AlreadyPresent
| Added.

(** The outcomes a printed report records: [Added] is the line
    [Adding project_id to ...] followed by [Done!]. *)
Fixpoint outcomes (ls : list Line) : list (string * Outcome) :=
  match ls with
  | [] => []
  | LAbsent t :: r => (t, TableAbsent) :: outcomes r
  | LExists t :: r => (t, AlreadyPresent) :: outcomes r
  | LAdding t :: r =>
      match r with
      | LDone :: _ => (t, Added) :: outcomes r
      | _ => outcomes r
      end
  | _ :: r => outcomes r
  end.

Definition report (c : Conn) : list (string * Outcome) := outcomes (stdout c).

End Engine.

(** ** The states a requirement leaves the connection in *)

(** After the column listing and the statement adding the column. *)
Definition attempted (t : string) (c : Conn) : Conn :=
  log_stmt (AlterAddColumn t project_id)
    (put_line (LAdding t) (log_stmt (TableInfo t) c)).

(** After the change was accepted and committed. *)
Definition added (t : string) (c : Conn) : Conn :=
  put_line LDone
    (log_stmt Commit
       (set_db (update_table t (add_column project_id) (db c))
          (attempted t c))).

Definition has_project_id (T : Table) : bool :=
  mem "project_id" (map col_name (tbl_cols T)).

(** What a run may do to a table: nothing, or add the column once. *)
Definition migrated_table (refuses : string -> list Column -> bool)
  (T T' : Table) : Prop :=
  T' = T \/
  (T' = add_column project_id T /\ has_project_id T = false /\
   rejects refuses project_id T = false).

(** Nothing of [T] is lost in [T']: same name, the columns of [T] first
    and as they were, as many rows, each with its values as they were. *)
Definition extends (T T' : Table) : Prop :=
  tbl_name T' = tbl_name T /\
  (exists extra, tbl_cols T' = tbl_cols T ++ extra) /\
  length (tbl_rows T') = length (tbl_rows T) /\
  Forall2 (fun r r' => exists vs, r' = r ++ vs) (tbl_rows T) (tbl_rows T').

(** Every row has one value per column. *)
Definition well_formed (T : Table) : Prop :=
  Forall (fun r => length r = length (tbl_cols T)) (tbl_rows T).

(** Two connections that differ in the stored rows at most. *)
Definition same_view (c c' : Conn) : Prop :=
  schema (db c) = schema (db c') /\ is_open c = is_open c' /\
  journal c = journal c' /\ stdout c = stdout c'.

(** The ways one requirement can end, for requirement [t] met on
    connection [c]. *)
Inductive step_case (refuses : string -> list Column -> bool)
  (t : string) (c : Conn) : Result unit * Conn -> Prop :=
| case_absent :
    mem t (map tbl_name (db c)) = false ->
    step_case refuses t c (Ok tt, put_line (LAbsent t) c)
| case_present T :
    mem t (map tbl_name (db c)) = true ->
    find_table t (db c) = Some T ->
    has_project_id T = true ->
    step_case refuses t c
      (Ok tt, put_line (LExists t) (log_stmt (TableInfo t) c))
| case_added T :
    mem t (map tbl_name (db c)) = true ->
    find_table t (db c) = Some T ->
    has_project_id T = false ->
    rejects refuses project_id T = false ->
    step_case refuses t c (Ok tt, added t c)
| case_rejected T :
    mem t (map tbl_name (db c)) = true ->
    find_table t (db c) = Some T ->
    has_project_id T = false ->
    rejects refuses project_id T = true ->
    step_case refuses t c
      (Raise (SchemaChangeRejected t "project_id"), attempted t c).

(** The connection when the loop starts. *)
Definition started (d : Db) : Conn :=
  put_line (LTables (map tbl_name d)) (log_stmt SelectTables (connect d)).

(** What holds of the connection all along the loop of a run on a store
    whose tables are [names]. *)
Definition in_run (names : list string) (c : Conn) : Prop :=
  is_open c = true /\ map tbl_name (db c) = names.

(** A requirement a run has nothing to add for. *)
Definition settled (t : string) (d : Db) : Prop :=
  mem t (map tbl_name d) = false \/
  exists T, find_table t d = Some T /\ has_project_id T = true.

(** A requirement whose change the store rejects. *)
Definition stuck (refuses : string -> list Column -> bool)
  (t : string) (d : Db) : Prop :=
  mem t (map tbl_name d) = true /\
  exists T, find_table t d = Some T /\ has_project_id T = false /\
            rejects refuses project_id T = true.

(** A store on which a run over [reqs] changes nothing: every requirement
    is settled, up to the first the store rejects if there is one. *)
Fixpoint calm (refuses : string -> list Column -> bool)
  (reqs : list string) (d : Db) : Prop :=
  match reqs with
  | [] => True
  | t :: reqs' => (settled t d /\ calm refuses reqs' d) \/ stuck refuses t d
  end.

Definition quiet (p : string * Outcome) : Prop :=
  snd p = AlreadyPresent \/ snd p = TableAbsent.

(** Every [added] of the report so far is a table of the store [d0] the
    run started on, now with the column added to it. *)
Definition additions_recorded (refuses : string -> list Column -> bool)
  (d0 : Db) (c : Conn) : Prop :=
  forall t, In (t, Added) (report c) ->
    exists T, find_table t d0 = Some T /\
              find_table t (db c) = Some (add_column project_id T) /\
              rejects refuses project_id T = false.

Definition same_schema (T T' : Table) : Prop :=
  tbl_name T' = tbl_name T /\ tbl_cols T' = tbl_cols T.

(** A computation that neither changes the store nor opens or closes the
    connection. *)
Definition steady {A} (m : M A) : Prop :=
  forall c, db (snd (m c)) = db c /\ is_open (snd (m c)) = is_open c.

Definition no_refusal : string -> list Column -> bool := fun _ _ => false.

(** ** Sample stores *)

Definition plain (name type : string) : Column :=
  {| col_name := name; col_type := type; col_notnull := false;
     col_dflt := None; col_pk := false |}.

Definition key : Column :=
  {| col_name := "id"; col_type := "INTEGER"; col_notnull := true;
     col_dflt := None; col_pk := true |}.

Definition memories_v1 : Table :=
  {| tbl_name := "memories";
     tbl_cols := [key; plain "content" "TEXT"];
     tbl_rows := [[VInt 1; VText "first"]; [VInt 2; VText "second"];
                  [VInt 3; VNull]] |}.

(** [project_id] is there already, with another type and no default. *)
Definition entities_v1 : Table :=
  {| tbl_name := "entities";
     tbl_cols := [key; {| col_name := "project_id"; col_type := "INTEGER";
                          col_notnull := true; col_dflt := None;
                          col_pk := false |}];
     tbl_rows := [[VInt 1; VInt 7]] |}.

Definition edges_v1 : Table :=
  {| tbl_name := "edges"; tbl_cols := [key; plain "weight" "REAL"];
     tbl_rows := [] |}.

(** A column the engine takes for [project_id] and the script does not. *)
Definition edges_mixed_case : Table :=
  {| tbl_name := "edges"; tbl_cols := [key; plain "Project_ID" "TEXT"];
     tbl_rows := [[VInt 1; VText "home"]] |}.

Definition entity_relations_v1 : Table :=
  {| tbl_name := "entity_relations"; tbl_cols := [key];
     tbl_rows := [[VInt 1]] |}.

(** No [scratchpad] table in either store. *)
Definition store_v1 : Db :=
  [memories_v1; entities_v1; edges_v1; entity_relations_v1].

Definition store_mixed_case : Db :=
  [memories_v1; entities_v1; edges_mixed_case; entity_relations_v1].

Definition without_rows (T : Table) : Table :=
  {| tbl_name := tbl_name T; tbl_cols := tbl_cols T; tbl_rows := [] |}.

(** The schema of [store_v1] and no row. *)
Definition store_v1_empty : Db := map without_rows store_v1.

(** A store that has no [memories] table. *)
Definition store_no_memories : Db := [entities_v1; edges_v1].

(** A store without views. *)
Definition no_views : string -> Db -> option Relation := fun _ _ => None.


(** ** Reading a run *)

(** The statements that only read the store. *)
Definition is_read (s : Stmt) : bool :=
  match s with
  | SelectTables | TableInfo _ | CountRows _ => true
  | AlterAddColumn _ _ | Commit => false
  end.

Definition reads_only (c : Conn) : Prop :=
  Forall (fun s => is_read s = true) (journal c).

(** A computation that keeps a property of the connection. *)
Definition keeps {A} (P : Conn -> Prop) (m : M A) : Prop :=
  forall c, P c -> P (snd (m c)).

Definition put_lines (ls : list Line) (c : Conn) : Conn :=
  {| db := db c; is_open := is_open c;
     journal := journal c; stdout := stdout c ++ ls |}.








(** A requirement whose table is there, lacks the column, and is refused
    the change by the store. *)
Definition blocked (refuses : string -> list Column -> bool)
  (d : Db) (t : string) : bool :=
  mem t (map tbl_name d) &&
  match find_table t d with
  | Some T => negb (has_project_id T) && rejects refuses project_id T
  | None => false
  end.

(** The outcome the store a run starts on calls for. *)
Definition plan (d : Db) (t : string) : Outcome :=
  if mem t (map tbl_name d) then
    match find_table t d with
    | Some T => if has_project_id T then AlreadyPresent else Added
    | None => Added
    end
  else TableAbsent.

(** The requirements before the first one that is blocked. *)
Fixpoint before_blocked (refuses : string -> list Column -> bool)
  (d : Db) (reqs : list string) : list string :=
  match reqs with
  | [] => []
  | t :: reqs' =>
      if blocked refuses d t then [] else t :: before_blocked refuses d reqs'
  end.

(** The statements an outcome stands for. *)
Definition stmts_of (p : string * Outcome) : list Stmt :=
  match snd p with
  | TableAbsent => []
  | AlreadyPresent => [TableInfo (fst p)]
  | Added => [TableInfo (fst p); AlterAddColumn (fst p) project_id; Commit]
  end.

(** The statements of a requirement the store rejects. *)
Definition stmts_of_failure (r : Result unit) : list Stmt :=
  match r with
  | Raise (SchemaChangeRejected t _) =>
      [TableInfo t; AlterAddColumn t project_id]
  | _ => []
  end.

(** Requirement names no two of which the store takes for one table. *)
Fixpoint distinct_names (reqs : list string) : bool :=
  match reqs with
  | [] => true
  | t :: reqs' =>
      forallb (fun u => negb (same_name t u)) reqs' && distinct_names reqs'
  end.

(** A table none of the requirements resolves to. *)
Definition unlisted (reqs : list string) (T : Table) : bool :=
  forallb (fun t => negb (same_name (tbl_name T) t)) reqs.

(** * Properties *)

Section Properties.

Variable refuses : string -> list Column -> bool.
Variable bare : string -> option string.
Variable views : string -> Db -> option Relation.


(** ** Names *)

Lemma same_name_refl a : same_name a a = true.
Proof. apply String.eqb_refl. Qed.

Lemma same_name_trans a b c :
  same_name a b = true -> same_name a c = same_name b c.
Proof.
  unfold same_name. intros H. apply String.eqb_eq in H. now rewrite H.
Qed.

Lemma mem_In x l : mem x l = true <-> In x l.
Proof.
  unfold mem. rewrite existsb_exists. split.
  - intros [y [Hy E]]. apply String.eqb_eq in E. now subst.
  - intros H. exists x. split; [assumption | apply String.eqb_refl].
Qed.

Lemma mem_names_find t d :
  mem t (map tbl_name d) = true -> exists T, find_table t d = Some T.
Proof.
  induction d as [|T d IH]; simpl.
  - discriminate.
  - destruct (same_name (tbl_name T) t) eqn:E.
    + intros _. now exists T.
    + intros H. apply orb_true_iff in H. destruct H as [H|H].
      * apply String.eqb_eq in H. subst t.
        rewrite same_name_refl in E. discriminate.
      * now apply IH.
Qed.

Lemma update_table_names t f d :
  (forall T, tbl_name (f T) = tbl_name T) ->
  map tbl_name (update_table t f d) = map tbl_name d.
Proof.
  intros Hf. induction d as [|T d IH]; simpl; [reflexivity|].
  destruct (same_name (tbl_name T) t); simpl.
  - now rewrite Hf.
  - now rewrite IH.
Qed.

(** ** The monad *)

Lemma bind_run {A B} (m : M A) (f : A -> M B) c :
  bind m f c =
  match m c with
  | (Ok a, c') => f a c'
  | (Raise e, c') => (Raise e, c')
  end.
Proof. reflexivity. Qed.

Lemma for_each_app {A} (l1 l2 : list A) (f : A -> M unit) c :
  for_each (l1 ++ l2) f c =
  match for_each l1 f c with
  | (Ok _, c') => for_each l2 f c'
  | (Raise e, c') => (Raise e, c')
  end.
Proof.
  revert c. induction l1 as [|x l1 IH]; intros c; simpl.
  - reflexivity.
  - rewrite !bind_run. destruct (f x c) as [[u|e] c1]; [apply IH | reflexivity].
Qed.

(** ** One requirement *)

Lemma migrate_table_eq tables t c :
  is_open c = true ->
  migrate_table refuses tables t c =
  if mem t tables then
    match find_table t (db c) with
    | Some T =>
        if has_project_id T
        then (Ok tt, put_line (LExists t) (log_stmt (TableInfo t) c))
        else if rejects refuses project_id T
             then (Raise (SchemaChangeRejected t "project_id"), attempted t c)
             else (Ok tt, added t c)
    | None => (Raise (NoSuchTable t), attempted t c)
    end
  else (Ok tt, put_line (LAbsent t) c).
Proof.
  intros Hopen. unfold migrate_table, has_project_id.
  destruct (mem t tables); [|reflexivity].
  unfold table_info, alter_add_column, commit, execute, print, bind.
  cbn. rewrite Hopen.
  destruct (find_table t (db c)) as [T|] eqn:EF;
    [destruct (mem "project_id" (map col_name (tbl_cols T))) eqn:EP;
     [|destruct (rejects refuses project_id T) eqn:ER]|];
    repeat (cbn; rewrite ?Hopen, ?EF, ?EP, ?ER); reflexivity.
Qed.

Lemma step_cases t c :
  is_open c = true ->
  step_case refuses t c (migrate_table refuses (map tbl_name (db c)) t c).
Proof.
  intros Hopen. rewrite migrate_table_eq by assumption.
  destruct (mem t (map tbl_name (db c))) eqn:EM.
  - destruct (mem_names_find _ _ EM) as [T ET]. rewrite ET.
    destruct (has_project_id T) eqn:EP.
    + now apply case_present with T.
    + destruct (rejects refuses project_id T) eqn:ER.
      * now apply case_rejected with T.
      * now apply case_added with T.
  - now apply case_absent.
Qed.

Lemma step_in_run names t c :
  in_run names c -> in_run names (snd (migrate_table refuses names t c)).
Proof.
  intros [Hopen Hn]. subst names.
  destruct (step_cases t c Hopen); split; cbn; try assumption; try reflexivity.
  apply update_table_names. reflexivity.
Qed.

(** ** The loop *)

Lemma migrate_eq d :
  migrate refuses d =
  match for_each tables_needing_project_id
          (migrate_table refuses (map tbl_name d)) (started d) with
  | (Ok _, c) => (Ok tt, put_line LComplete (shut c))
  | (Raise e, c) => (Raise e, c)
  end.
Proof.
  unfold migrate, migrate_conn, select_tables, execute, print, close, bind.
  cbn. fold (started d).
  destruct (for_each tables_needing_project_id
              (migrate_table refuses (map tbl_name d)) (started d))
    as [[u|e] c]; reflexivity.
Qed.

Lemma migrate_upto_eq n d :
  migrate_upto refuses n (connect d) =
  for_each (firstn n tables_needing_project_id)
    (migrate_table refuses (map tbl_name d)) (started d).
Proof. reflexivity. Qed.

Lemma started_in_run d : in_run (map tbl_name d) (started d).
Proof. split; reflexivity. Qed.

Lemma for_each_in_run names reqs c :
  in_run names c ->
  in_run names (snd (for_each reqs (migrate_table refuses names) c)).
Proof.
  revert c. induction reqs as [|t reqs IH]; intros c Hc; simpl.
  - assumption.
  - rewrite bind_run.
    pose proof (step_in_run names t c Hc) as H1.
    destruct (migrate_table refuses names t c) as [[u|e] c1]; cbn in *.
    + now apply IH.
    + assumption.
Qed.

(** A relation between connections that every requirement respects holds
    across the loop. *)
Lemma for_each_related (Rel : Conn -> Conn -> Prop) names :
  (forall c, Rel c c) ->
  (forall a b c, Rel a b -> Rel b c -> Rel a c) ->
  (forall t c, in_run names c ->
     Rel c (snd (migrate_table refuses names t c))) ->
  forall reqs c, in_run names c ->
    Rel c (snd (for_each reqs (migrate_table refuses names) c)).
Proof.
  intros Hrefl Htrans Hstep reqs.
  induction reqs as [|t reqs IH]; intros c Hc; simpl.
  - apply Hrefl.
  - rewrite bind_run.
    pose proof (Hstep t c Hc) as H1.
    pose proof (step_in_run names t c Hc) as H2.
    destruct (migrate_table refuses names t c) as [[u|e] c1]; cbn in *.
    + apply Htrans with c1; [assumption | now apply IH].
    + assumption.
Qed.

(** ** What a run does to the tables *)

Lemma has_project_id_add T : has_project_id (add_column project_id T) = true.
Proof.
  unfold has_project_id. apply mem_In. cbn. rewrite map_app.
  apply in_or_app. right. now left.
Qed.

Lemma migrated_table_trans T1 T2 T3 :
  migrated_table refuses T1 T2 -> migrated_table refuses T2 T3 ->
  migrated_table refuses T1 T3.
Proof.
  intros [E1|[E1 [P1 R1]]] [E2|[E2 [P2 R2]]]; subst.
  - now left.
  - right. now repeat split.
  - right. now repeat split.
  - rewrite has_project_id_add in P2. discriminate.
Qed.

Lemma Forall2_reflexive {A} (P : A -> A -> Prop) l :
  (forall x, P x x) -> Forall2 P l l.
Proof. intros H. induction l; constructor; auto. Qed.

Lemma Forall2_transitive {A} (P : A -> A -> Prop) :
  (forall x y z, P x y -> P y z -> P x z) ->
  forall l1 l2 l3, Forall2 P l1 l2 -> Forall2 P l2 l3 -> Forall2 P l1 l3.
Proof.
  intros HP l1 l2 l3 H12. revert l3.
  induction H12 as [|x y l1 l2 Hxy H12 IH]; intros l3 H23;
    inversion H23; subst; constructor; eauto.
Qed.

Lemma update_table_migrated t T d :
  find_table t d = Some T ->
  has_project_id T = false ->
  rejects refuses project_id T = false ->
  Forall2 (migrated_table refuses) d
    (update_table t (add_column project_id) d).
Proof.
  intros HF HP HR. induction d as [|T0 d IH]; simpl in *.
  - discriminate.
  - destruct (same_name (tbl_name T0) t).
    + injection HF as ->. constructor.
      * right. now repeat split.
      * apply Forall2_reflexive. intros x. now left.
    + constructor; [now left | now apply IH].
Qed.

Lemma step_migrated names t c :
  in_run names c ->
  Forall2 (migrated_table refuses) (db c)
    (db (snd (migrate_table refuses names t c))).
Proof.
  intros [Hopen Hn]. subst names.
  destruct (step_cases t c Hopen); cbn;
    try (apply Forall2_reflexive; intros x; now left).
  now apply update_table_migrated with T.
Qed.

Lemma for_each_migrated names reqs c :
  in_run names c ->
  Forall2 (migrated_table refuses) (db c)
    (db (snd (for_each reqs (migrate_table refuses names) c))).
Proof.
  apply (for_each_related
           (fun a b => Forall2 (migrated_table refuses) (db a) (db b))).
  - intros a. apply Forall2_reflexive. intros x. now left.
  - intros a b e. apply Forall2_transitive. apply migrated_table_trans.
  - intros t a. apply step_migrated.
Qed.

Lemma migrate_migrated d :
  Forall2 (migrated_table refuses) d (db (snd (migrate refuses d))).
Proof.
  rewrite migrate_eq.
  pose proof (for_each_migrated (map tbl_name d) tables_needing_project_id
                (started d) (started_in_run d)) as H.
  destruct (for_each tables_needing_project_id
              (migrate_table refuses (map tbl_name d)) (started d))
    as [[u|e] c]; exact H.
Qed.

Lemma migrated_table_extends T T' :
  migrated_table refuses T T' -> extends T T'.
Proof.
  intros [->|[-> _]]; unfold extends; cbn.
  - repeat split.
    + exists []. now rewrite app_nil_r.
    + apply Forall2_reflexive. intros r. exists []. now rewrite app_nil_r.
  - repeat split.
    + now exists [project_id].
    + now rewrite length_map.
    + induction (tbl_rows T) as [|r rs IH]; cbn; constructor.
      * now exists [default_value project_id].
      * exact IH.
Qed.

Lemma Forall2_weaken {A B} (P Q : A -> B -> Prop) l l' :
  (forall x y, P x y -> Q x y) -> Forall2 P l l' -> Forall2 Q l l'.
Proof. intros H F. induction F; constructor; auto. Qed.

Lemma Forall2_nth_error {A B} (P : A -> B -> Prop) l l' :
  Forall2 P l l' ->
  forall i x, nth_error l i = Some x ->
    exists y, nth_error l' i = Some y /\ P x y.
Proof.
  intros F. induction F as [|a b l l' Hab F IH]; intros i x Hi.
  - destruct i; discriminate.
  - destruct i as [|i]; cbn in *.
    + injection Hi as ->. now exists b.
    + now apply IH.
Qed.

Lemma migrated_table_name T T' :
  migrated_table refuses T T' -> tbl_name T' = tbl_name T.
Proof. intros [->|[-> _]]; reflexivity. Qed.

Lemma find_table_related (P : Table -> Table -> Prop) d d' t :
  (forall T T', P T T' -> tbl_name T' = tbl_name T) ->
  Forall2 P d d' ->
  (find_table t d = None /\ find_table t d' = None) \/
  (exists T T', find_table t d = Some T /\ find_table t d' = Some T' /\ P T T').
Proof.
  intros Hname F. induction F as [|T T' d d' HP F IH]; simpl.
  - now left.
  - rewrite (Hname _ _ HP).
    destruct (same_name (tbl_name T) t).
    + right. now exists T, T'.
    + exact IH.
Qed.

Lemma migrated_names d d' :
  Forall2 (migrated_table refuses) d d' -> map tbl_name d' = map tbl_name d.
Proof.
  intros F. induction F as [|T T' d d' HP F IH]; simpl.
  - reflexivity.
  - now rewrite IH, (migrated_table_name _ _ HP).
Qed.

(** C5. A run of the migration leaves every table in its place with its
    name, keeps every column it had, first and unchanged, and keeps every
    row with the values it had: the tables after the run differ from the
    tables before it by added columns only. *)
Theorem migrate_is_additive (d : Db) :
  Forall2 extends d (db (snd (migrate refuses d))).
Proof.
  apply Forall2_weaken with (P := migrated_table refuses).
  - apply migrated_table_extends.
  - apply migrate_migrated.
Qed.

(** C6. A run of the migration creates no table: the catalog lists the
    same table names after the run as before it, and a name resolves to a
    table after the run exactly when it did before. *)
Theorem migrate_creates_no_table (d : Db) :
  map tbl_name (db (snd (migrate refuses d))) = map tbl_name d /\
  forall t, option_map tbl_name (find_table t (db (snd (migrate refuses d))))
            = option_map tbl_name (find_table t d).
Proof.
  pose proof (migrate_migrated d) as F. split.
  - now apply migrated_names.
  - intros t.
    destruct (find_table_related _ _ _ t migrated_table_name F)
      as [[-> ->]|[T [T' [-> [-> HP]]]]]; cbn.
    + reflexivity.
    + now rewrite (migrated_table_name _ _ HP).
Qed.

(** C9. A table that has a column named [project_id] is left as it is by
    a run of the migration, whatever the declared type, the NOT NULL flag
    and the default of that column: the table holds the same columns and
    the same rows after the run, at the same place of the catalog. *)
Theorem migrate_decides_by_name (d : Db) (i : nat) (T : Table) :
  nth_error d i = Some T ->
  In "project_id" (map col_name (tbl_cols T)) ->
  nth_error (db (snd (migrate refuses d))) i = Some T.
Proof.
  intros Hi Hp.
  destruct (Forall2_nth_error _ _ _ (migrate_migrated d) i T Hi)
    as [T' [Hi' [->|[_ [HP _]]]]].
  - exact Hi'.
  - apply mem_In in Hp. unfold has_project_id in HP. congruence.
Qed.

(** ** The report *)

Lemma outcomes_app l m :
  match m with LDone :: _ => False | _ => True end ->
  outcomes (l ++ m) = outcomes l ++ outcomes m.
Proof.
  intros Hm. induction l as [|x l IH]; [reflexivity|].
  destruct x; cbn [app outcomes]; rewrite ?IH; try reflexivity.
  destruct l as [|y l]; cbn [app].
  - destruct m as [|[] m]; cbn in *; try reflexivity. contradiction.
  - destruct y; reflexivity.
Qed.

Lemma report_put_line l c :
  l <> LDone -> report (put_line l c) = report c ++ outcomes [l].
Proof.
  intros Hl. unfold report. cbn [stdout put_line].
  apply outcomes_app. destruct l; try exact I. congruence.
Qed.

Lemma report_attempted t c : report (attempted t c) = report c.
Proof.
  unfold report. cbn [stdout attempted put_line log_stmt].
  rewrite outcomes_app by exact I. cbn. apply app_nil_r.
Qed.

Lemma report_added t c : report (added t c) = report c ++ [(t, Added)].
Proof.
  unfold report. cbn [stdout added attempted put_line log_stmt set_db].
  rewrite <- app_assoc. cbn [app]. now rewrite outcomes_app by exact I.
Qed.

Lemma journal_added t c :
  journal (added t c) =
  journal c ++ [TableInfo t; AlterAddColumn t project_id; Commit].
Proof. cbn. now rewrite <- !app_assoc. Qed.

Lemma journal_attempted t c :
  journal (attempted t c) =
  journal c ++ [TableInfo t; AlterAddColumn t project_id].
Proof. cbn. now rewrite <- !app_assoc. Qed.

(** ** The run, requirement by requirement *)

Lemma firstn_snoc {A} (l : list A) k x :
  nth_error l k = Some x -> firstn (S k) l = firstn k l ++ [x].
Proof.
  revert l. induction k as [|k IH]; intros [|y l] H; try discriminate.
  - cbn in H. injection H as ->. reflexivity.
  - cbn in H. cbn [firstn app]. f_equal. apply (IH l H).
Qed.

Lemma migrate_upto_next d k t :
  nth_error tables_needing_project_id k = Some t ->
  migrate_upto refuses (S k) (connect d) =
  match migrate_upto refuses k (connect d) with
  | (Ok _, c) => migrate_table refuses (map tbl_name d) t c
  | (Raise e, c) => (Raise e, c)
  end.
Proof.
  intros Hk. rewrite !migrate_upto_eq, (firstn_snoc _ _ _ Hk), for_each_app.
  destruct (for_each (firstn k tables_needing_project_id)
              (migrate_table refuses (map tbl_name d)) (started d))
    as [[u|e] c]; [|reflexivity].
  cbn [for_each]. rewrite bind_run.
  destruct (migrate_table refuses (map tbl_name d) t c) as [[[]|e] c1];
    reflexivity.
Qed.

Lemma migrate_upto_in_run d k :
  in_run (map tbl_name d) (snd (migrate_upto refuses k (connect d))).
Proof.
  rewrite migrate_upto_eq. apply for_each_in_run, started_in_run.
Qed.

Lemma migrate_upto_cases d k t c :
  nth_error tables_needing_project_id k = Some t ->
  migrate_upto refuses k (connect d) = (Ok tt, c) ->
  step_case refuses t c (migrate_upto refuses (S k) (connect d)).
Proof.
  intros Hk Hc. rewrite (migrate_upto_next d k t Hk), Hc.
  pose proof (migrate_upto_in_run d k) as [Hopen Hn]. rewrite Hc in *.
  cbn [snd] in *. rewrite <- Hn. now apply step_cases.
Qed.

Lemma migrate_upto_raise d k e c :
  migrate_upto refuses k (connect d) = (Raise e, c) ->
  migrate refuses d = (Raise e, c).
Proof.
  intros H. rewrite migrate_eq.
  rewrite <- (firstn_skipn k tables_needing_project_id) at 1.
  rewrite for_each_app. rewrite migrate_upto_eq in H. now rewrite H.
Qed.

Lemma migrate_upto_all d :
  migrate refuses d =
  match migrate_upto refuses (length tables_needing_project_id) (connect d) with
  | (Ok _, c) => (Ok tt, put_line LComplete (shut c))
  | (Raise e, c) => (Raise e, c)
  end.
Proof. rewrite migrate_eq, migrate_upto_eq, firstn_all. reflexivity. Qed.

Lemma report_log_stmt s c : report (log_stmt s c) = report c.
Proof. reflexivity. Qed.

Lemma step_case_report t c rc :
  step_case refuses t c rc ->
  (exists o, fst rc = Ok tt /\ report (snd rc) = report c ++ [(t, o)]) \/
  (exists e, fst rc = Raise e /\ report (snd rc) = report c).
Proof.
  intros []; cbn [fst snd].
  - left. exists TableAbsent. split; [reflexivity|].
    now rewrite report_put_line.
  - left. exists AlreadyPresent. split; [reflexivity|].
    now rewrite report_put_line.
  - left. exists Added. split; [reflexivity | apply report_added].
  - right. eexists. split; [reflexivity | apply report_attempted].
Qed.

Lemma for_each_report names reqs c :
  in_run names c ->
  exists n,
    map fst (report (snd (for_each reqs (migrate_table refuses names) c)))
    = map fst (report c) ++ firstn n reqs /\
    (fst (for_each reqs (migrate_table refuses names) c) = Ok tt ->
     n = length reqs).
Proof.
  revert c. induction reqs as [|t reqs IH]; intros c Hc.
  - exists 0. cbn. now rewrite app_nil_r.
  - cbn [for_each]. rewrite bind_run.
    pose proof (step_in_run names t c Hc) as H1.
    destruct Hc as [Hopen Hn]. subst names.
    pose proof (step_case_report _ _ _ (step_cases t c Hopen)) as H2.
    destruct (migrate_table refuses (map tbl_name (db c)) t c)
      as [[u|e] c1]; cbn [fst snd] in *.
    + destruct H2 as [[o [_ Hr]]|[e [He _]]]; [|discriminate].
      destruct (IH c1 H1) as [n [Hn Hok]].
      exists (S n). split.
      * rewrite Hn, Hr, map_app, <- app_assoc. reflexivity.
      * intros H. cbn. f_equal. now apply Hok.
    + destruct H2 as [[o [Ho _]]|[e' [_ Hr]]]; [discriminate|].
      exists 0. split; [|discriminate].
      cbn. now rewrite Hr, app_nil_r.
Qed.

Lemma migrate_upto_report d k c :
  migrate_upto refuses k (connect d) = (Ok tt, c) ->
  map fst (report c) = firstn k tables_needing_project_id.
Proof.
  intros H. rewrite migrate_upto_eq in H.
  destruct (for_each_report (map tbl_name d)
              (firstn k tables_needing_project_id) (started d)
              (started_in_run d)) as [n [Hn Hok]].
  rewrite H in *. cbn [fst snd] in *.
  rewrite Hn, (Hok eq_refl), firstn_all. reflexivity.
Qed.

Lemma migrate_report_complete d :
  fst (migrate refuses d) = Ok tt ->
  map fst (report (snd (migrate refuses d))) = tables_needing_project_id.
Proof.
  rewrite migrate_upto_all.
  pose proof (migrate_upto_report d (length tables_needing_project_id)) as H.
  destruct (migrate_upto refuses (length tables_needing_project_id) (connect d))
    as [[[]|e] c]; [intros _|discriminate].
  cbn [snd]. rewrite report_put_line by discriminate.
  cbn [outcomes]. rewrite app_nil_r.
  change (report (shut c)) with (report c).
  rewrite (H c eq_refl). apply firstn_all.
Qed.

(** C1, as the code has it.  Take the run at the requirement [t] of rank
    [k], every requirement before it done.  Each of those has exactly one
    outcome in the report, in the order of the list, and [t] gets exactly
    one more (so that a run that completes reports one outcome for each
    requirement of the list, in the order of the list):
    - the store has no table [t]: [table-absent], no statement is issued
      and the store is as it was;
    - the table has a column named [project_id]: [already-present], the
      column listing is the only statement and the store is as it was;
    - the table has no such column and the store accepts the change:
      [added], the statements are the column listing, one
      [ALTER TABLE t ADD COLUMN project_id TEXT DEFAULT 'global'] and the
      commit, in this order, before anything of the next requirement. *)
Theorem migrate_requirement_outcome (d : Db) (k : nat) (t : string) (c : Conn) :
  nth_error tables_needing_project_id k = Some t ->
  migrate_upto refuses k (connect d) = (Ok tt, c) ->
  let next := migrate_upto refuses (S k) (connect d) in
  (fst (migrate refuses d) = Ok tt ->
     map fst (report (snd (migrate refuses d))) = tables_needing_project_id) /\
  map fst (report c) = firstn k tables_needing_project_id /\
  (mem t (map tbl_name (db c)) = false ->
     fst next = Ok tt /\
     report (snd next) = report c ++ [(t, TableAbsent)] /\
     journal (snd next) = journal c /\
     db (snd next) = db c) /\
  (mem t (map tbl_name (db c)) = true ->
     exists T, find_table t (db c) = Some T /\
     (has_project_id T = true ->
        fst next = Ok tt /\
        report (snd next) = report c ++ [(t, AlreadyPresent)] /\
        journal (snd next) = journal c ++ [TableInfo t] /\
        db (snd next) = db c) /\
     (has_project_id T = false ->
      rejects refuses project_id T = false ->
        fst next = Ok tt /\
        report (snd next) = report c ++ [(t, Added)] /\
        journal (snd next) =
          journal c ++ [TableInfo t; AlterAddColumn t project_id; Commit] /\
        db (snd next) = update_table t (add_column project_id) (db c))).
Proof.
  intros Hk Hc next. split; [apply migrate_report_complete|].
  split; [now apply migrate_upto_report with d|].
  pose proof (migrate_upto_cases d k t c Hk Hc) as Hcase. fold next in Hcase.
  destruct Hcase as [Ha|T Hm HT HP|T Hm HT HP HR|T Hm HT HP HR]; cbn [fst snd].
  - split; [intros _|congruence].
    repeat split. now rewrite report_put_line.
  - split; [congruence|intros _].
    exists T. split; [assumption|]. split; [intros _|congruence].
    repeat split. now rewrite report_put_line.
  - split; [congruence|intros _].
    exists T. split; [assumption|]. split; [congruence|intros _ _].
    repeat split; [apply report_added | apply journal_added].
  - split; [congruence|intros _].
    exists T. split; [assumption|]. split; congruence.
Qed.

(** C3, as the code has it.  When the store rejects the change for the
    requirement [t] of rank [k], the run ends there with the store's
    error: the statement adding the column is the last one issued, the
    store and the report are as the requirements before [t] left them, no
    outcome is recorded for [t] and no requirement after [t] is
    attempted. *)
Theorem migrate_stops_at_rejection (d : Db) (k : nat) (t : string)
  (c : Conn) (T : Table) :
  nth_error tables_needing_project_id k = Some t ->
  migrate_upto refuses k (connect d) = (Ok tt, c) ->
  find_table t (db c) = Some T ->
  mem t (map tbl_name (db c)) = true ->
  has_project_id T = false ->
  rejects refuses project_id T = true ->
  migrate refuses d
  = (Raise (SchemaChangeRejected t "project_id"), attempted t c) /\
  db (attempted t c) = db c /\
  report (attempted t c) = report c /\
  map fst (report c) = firstn k tables_needing_project_id /\
  journal (attempted t c)
  = journal c ++ [TableInfo t; AlterAddColumn t project_id].
Proof.
  intros Hk Hc HT Hm HP HR.
  assert (Hnext : migrate_upto refuses (S k) (connect d)
                  = (Raise (SchemaChangeRejected t "project_id"),
                     attempted t c)).
  { rewrite (migrate_upto_next d k t Hk), Hc.
    pose proof (migrate_upto_in_run d k) as [Hopen Hn].
    rewrite Hc in Hopen, Hn. cbn [snd] in Hopen, Hn.
    rewrite migrate_table_eq by assumption.
    now rewrite <- Hn, Hm, HT, HP, HR. }
  repeat split.
    + now apply migrate_upto_raise with (S k).
    + apply report_attempted.
    + now apply migrate_upto_report with d.
    + apply journal_attempted.
Qed.

(** ** A second run *)

Lemma find_table_update t f d T :
  tbl_name (f T) = tbl_name T ->
  find_table t d = Some T ->
  find_table t (update_table t f d) = Some (f T).
Proof.
  intros Hf. induction d as [|T0 d IH]; simpl; [discriminate|].
  destruct (same_name (tbl_name T0) t) eqn:E; simpl.
  - intros H. injection H as ->. now rewrite Hf, E.
  - intros H. rewrite E. now apply IH.
Qed.

Lemma migrated_table_keeps T T' :
  migrated_table refuses T T' -> has_project_id T = true -> T' = T.
Proof. intros [->|[_ [HP _]]] H; [reflexivity | congruence]. Qed.

Lemma settled_after names reqs t c :
  in_run names c ->
  settled t (db c) ->
  settled t (db (snd (for_each reqs (migrate_table refuses names) c))).
Proof.
  intros Hc [Hm|[T [HT HP]]].
  - left. destruct (for_each_in_run names reqs c Hc) as [_ Hn].
    destruct Hc as [_ Hn']. congruence.
  - right.
    destruct (find_table_related _ _ _ t migrated_table_name
                (for_each_migrated names reqs c Hc))
      as [[E _]|[T1 [T2 [E1 [E2 HM]]]]]; [congruence|].
    assert (T1 = T) by congruence. subst T1.
    exists T2. split; [assumption|].
    now rewrite (migrated_table_keeps _ _ HM HP).
Qed.

Lemma for_each_leaves_calm names reqs c :
  in_run names c ->
  calm refuses reqs (db (snd (for_each reqs (migrate_table refuses names) c))).
Proof.
  revert c. induction reqs as [|t reqs IH]; intros c Hc; [exact I|].
  cbn [for_each calm]. rewrite bind_run.
  pose proof (step_in_run names t c Hc) as H1.
  pose proof Hc as [Hopen Hn]. subst names. revert H1.
  destruct (step_cases t c Hopen) as [Ha|T Hm HT HP|T Hm HT HP HR|T Hm HT HP HR];
    cbn [snd]; intros H1.
  - left. split; [|now apply IH].
    apply settled_after; [assumption|]. now left.
  - left. split; [|now apply IH].
    apply settled_after; [assumption|]. right. now exists T.
  - left. split; [|now apply IH].
    apply settled_after; [assumption|]. right.
    exists (add_column project_id T). split.
    + now apply find_table_update.
    + apply has_project_id_add.
  - right. split; [assumption | now exists T].
Qed.

Lemma Forall_quiet_snoc l t o :
  Forall quiet l -> quiet (t, o) -> Forall quiet (l ++ [(t, o)]).
Proof. intros Hl Ho. apply Forall_app. split; [assumption | now constructor]. Qed.

Lemma calm_for_each names reqs c :
  in_run names c ->
  calm refuses reqs (db c) ->
  Forall quiet (report c) ->
  db (snd (for_each reqs (migrate_table refuses names) c)) = db c /\
  Forall quiet (report (snd (for_each reqs (migrate_table refuses names) c))).
Proof.
  revert c. induction reqs as [|t reqs IH]; intros c Hc Hcalm Hq;
    [now split|].
  cbn [for_each]. rewrite bind_run.
  pose proof (step_in_run names t c Hc) as H1.
  pose proof Hc as [Hopen Hn]. subst names. revert H1. cbn [calm] in Hcalm.
  destruct (step_cases t c Hopen) as [Ha|T Hm HT HP|T Hm HT HP HR|T Hm HT HP HR];
    cbn [snd]; intros H1.
  - destruct Hcalm as [[_ Hrest]|[Hm _]]; [|congruence].
    apply (IH (put_line (LAbsent t) c)); [assumption..|].
    rewrite report_put_line by discriminate.
    apply Forall_quiet_snoc; [assumption | now right].
  - destruct Hcalm as [[_ Hrest]|[_ [T' [HT' [HP' _]]]]]; [|congruence].
    apply (IH (put_line (LExists t) (log_stmt (TableInfo t) c)));
      [assumption..|].
    rewrite report_put_line by discriminate.
    apply Forall_quiet_snoc; [assumption | now left].
  - exfalso.
    destruct Hcalm as [[[Ha|[T' [HT' HP']]] _]|[_ [T' [HT' [_ HR']]]]];
      congruence.
  - cbn [snd]. split; [reflexivity | now rewrite report_attempted].
Qed.

(** C2. Run the migration, then run it again on the store the first run
    left: the second run leaves that store as it found it, tables, columns
    and rows, and every outcome it reports is [already-present] or
    [table-absent], none is [added]. *)
Theorem migrate_twice (d : Db) :
  let once := db (snd (migrate refuses d)) in
  let again := snd (migrate refuses once) in
  db again = once /\ Forall quiet (report again).
Proof.
  intros once again.
  assert (Hcalm : calm refuses tables_needing_project_id once).
  { unfold once. rewrite migrate_eq.
    pose proof (for_each_leaves_calm (map tbl_name d)
                  tables_needing_project_id (started d) (started_in_run d)) as H.
    destruct (for_each tables_needing_project_id
                (migrate_table refuses (map tbl_name d)) (started d))
      as [[u|e] c]; exact H. }
  unfold again. rewrite migrate_eq.
  destruct (calm_for_each (map tbl_name once) tables_needing_project_id
              (started once) (started_in_run once) Hcalm) as [Hdb Hq].
  { constructor. }
  destruct (for_each tables_needing_project_id
              (migrate_table refuses (map tbl_name once)) (started once))
    as [[u|e] c]; cbn [snd] in *.
  - split; [exact Hdb|].
    rewrite report_put_line by discriminate. cbn. now rewrite app_nil_r.
  - now split.
Qed.

(** ** The column a run adds *)

(** ** The column a run adds *)

Lemma additions_recorded_quiet d0 c c' t o :
  additions_recorded refuses d0 c ->
  db c' = db c ->
  report c' = report c ++ [(t, o)] ->
  o <> Added ->
  additions_recorded refuses d0 c'.
Proof.
  intros HJ Hdb Hr Ho u Hu. rewrite Hr in Hu. rewrite Hdb.
  apply in_app_or in Hu. destruct Hu as [Hu|[Hu|[]]].
  - now apply HJ.
  - congruence.
Qed.

Lemma step_additions_recorded d0 t c :
  is_open c = true ->
  Forall2 (migrated_table refuses) d0 (db c) ->
  additions_recorded refuses d0 c ->
  additions_recorded refuses d0
    (snd (migrate_table refuses (map tbl_name (db c)) t c)).
Proof.
  intros Hopen H0 HJ.
  pose proof (step_migrated _ t c (conj Hopen eq_refl)) as Hstep. revert Hstep.
  destruct (step_cases t c Hopen) as [Ha|T Hm HT HP|T Hm HT HP HR|T Hm HT HP HR];
    cbn [snd]; intros Hstep.
  - apply additions_recorded_quiet with c (t) TableAbsent;
      [assumption | reflexivity | | discriminate].
    now rewrite report_put_line.
  - apply additions_recorded_quiet with c (t) AlreadyPresent;
      [assumption | reflexivity | | discriminate].
    now rewrite report_put_line.
  - intros u Hu. rewrite report_added in Hu.
    apply in_app_or in Hu. destruct Hu as [Hu|[Hu|[]]].
    + destruct (HJ u Hu) as [U [HU0 [HU HUR]]].
      exists U. repeat split; try assumption.
      destruct (find_table_related _ _ _ u migrated_table_name Hstep)
        as [[E _]|[A [A' [EA [EA' HM]]]]]; [congruence|].
      rewrite EA'. f_equal.
      assert (A = add_column project_id U) by congruence. subst A.
      apply (migrated_table_keeps _ _ HM), has_project_id_add.
    + injection Hu as <-.
      destruct (find_table_related _ _ _ t migrated_table_name H0)
        as [[_ E]|[A [A' [EA [EA' HM]]]]]; [congruence|].
      assert (A' = T) by congruence. subst A'.
      destruct HM as [->|[-> _]].
      * exists A. repeat split; try assumption.
        cbn [db added set_db]. now apply find_table_update.
      * rewrite has_project_id_add in HP. discriminate.
  - intros u Hu. rewrite report_attempted in Hu. now apply HJ.
Qed.

Lemma for_each_additions_recorded d0 names reqs c :
  in_run names c ->
  Forall2 (migrated_table refuses) d0 (db c) ->
  additions_recorded refuses d0 c ->
  additions_recorded refuses d0
    (snd (for_each reqs (migrate_table refuses names) c)).
Proof.
  revert c. induction reqs as [|t reqs IH]; intros c Hc H0 HJ; [exact HJ|].
  cbn [for_each]. rewrite bind_run.
  pose proof (step_in_run names t c Hc) as H1.
  pose proof (step_migrated names t c Hc) as H2.
  pose proof Hc as [Hopen Hn]. subst names.
  pose proof (step_additions_recorded d0 t c Hopen H0 HJ) as H3.
  destruct (migrate_table refuses (map tbl_name (db c)) t c) as [[u|e] c1];
    cbn [snd] in *.
  - apply IH; try assumption.
    apply Forall2_transitive with (l2 := db c);
      [apply migrated_table_trans | assumption..].
  - assumption.
Qed.

Lemma find_table_In t d T : find_table t d = Some T -> In T d.
Proof.
  induction d as [|T0 d IH]; simpl; [discriminate|].
  destruct (same_name (tbl_name T0) t).
  - intros H. injection H as ->. now left.
  - intros H. right. now apply IH.
Qed.

Lemma read_column_added cols (r : Row) c v name :
  has_column name cols = false ->
  length r = length cols ->
  same_name (col_name c) name = true ->
  read_column (cols ++ [c]) (r ++ [v]) name = Some v.
Proof.
  revert r. induction cols as [|c0 cols IH]; intros [|v0 r] Hh Hl Hc;
    try discriminate; cbn.
  - now rewrite Hc.
  - cbn in Hh. apply orb_false_iff in Hh. destruct Hh as [-> Hh].
    apply IH; try assumption. now injection Hl.
Qed.

(** C4. When a run reports [added] for [t], the table [t] resolved to
    before the run, its rows well formed, has as many rows after the run,
    each row as it was with one more value, and read on [project_id] each
    gives the text [global], the default of the requirement. *)
Theorem migrate_default_propagation (d : Db) (t : string) :
  Forall well_formed d ->
  In (t, Added) (report (snd (migrate refuses d))) ->
  exists T T',
    find_table t d = Some T /\
    find_table t (db (snd (migrate refuses d))) = Some T' /\
    length (tbl_rows T') = length (tbl_rows T) /\
    forall j r, nth_error (tbl_rows T) j = Some r ->
      nth_error (tbl_rows T') j = Some (r ++ [VText "global"]) /\
      read_column (tbl_cols T') (r ++ [VText "global"]) "project_id"
      = Some (VText "global").
Proof.
  intros Hwf Hin.
  assert (HJ : additions_recorded refuses d (snd (migrate refuses d))).
  { rewrite migrate_eq.
    pose proof (for_each_additions_recorded d (map tbl_name d)
                  tables_needing_project_id (started d) (started_in_run d)) as H.
    destruct (for_each tables_needing_project_id
                (migrate_table refuses (map tbl_name d)) (started d))
      as [[u|e] c]; cbn [snd] in *.
    - intros u' Hu'. rewrite report_put_line in Hu' by discriminate.
      cbn in Hu'. rewrite app_nil_r in Hu'. revert u' Hu'. apply H.
      + apply Forall2_reflexive. intros x. now left.
      + intros x [].
    - apply H.
      + apply Forall2_reflexive. intros x. now left.
      + intros x []. }
  destruct (HJ t Hin) as [T [HT [HT' HR]]].
  exists T, (add_column project_id T). repeat split; try assumption.
  - cbn. apply length_map.
  - cbn [tbl_rows add_column].
    now apply (map_nth_error (fun r => r ++ [default_value project_id])).
  - cbn [tbl_cols add_column]. apply read_column_added.
    + unfold rejects in HR. apply orb_false_iff in HR. apply HR.
    + rewrite Forall_forall in Hwf.
      pose proof (Hwf T (find_table_In _ _ _ HT)) as HwT.
      unfold well_formed in HwT. rewrite Forall_forall in HwT.
      apply HwT. now apply nth_error_In with j.
    + reflexivity.
Qed.

(** ** Two stores of one schema *)

Lemma schema_same d d' :
  schema d = schema d' <-> Forall2 same_schema d' d.
Proof.
  unfold schema. split.
  - revert d'. induction d as [|T d IH]; intros [|T' d'] H; try discriminate.
    + constructor.
    + cbn in H. injection H as Hn Hc H. constructor.
      * now split.
      * now apply IH.
  - intros F. induction F as [|T' T d' d [Hn Hc] F IH]; cbn.
    + reflexivity.
    + now rewrite IH, Hn, Hc.
Qed.

Lemma same_schema_name T T' : same_schema T T' -> tbl_name T' = tbl_name T.
Proof. now intros [H _]. Qed.

Lemma update_table_same_schema t col d d' :
  Forall2 same_schema d d' ->
  Forall2 same_schema (update_table t (add_column col) d)
    (update_table t (add_column col) d').
Proof.
  intros F. induction F as [|T T' d d' [Hn Hc] F IH]; simpl.
  - constructor.
  - rewrite Hn. destruct (same_name (tbl_name T) t).
    + constructor; [|assumption]. split; cbn; congruence.
    + constructor; [now split | assumption].
Qed.

Lemma same_view_put_line l c c' :
  same_view c c' -> same_view (put_line l c) (put_line l c').
Proof.
  intros [Hs [Ho [Hj Hl]]].
  repeat split; cbn [db is_open journal stdout put_line log_stmt]; congruence.
Qed.

Lemma same_view_log_stmt s c c' :
  same_view c c' -> same_view (log_stmt s c) (log_stmt s c').
Proof.
  intros [Hs [Ho [Hj Hl]]].
  repeat split; cbn [db is_open journal stdout put_line log_stmt]; congruence.
Qed.

Lemma same_view_attempted t c c' :
  same_view c c' -> same_view (attempted t c) (attempted t c').
Proof.
  intros H. unfold attempted.
  now apply same_view_log_stmt, same_view_put_line, same_view_log_stmt.
Qed.

Lemma step_same_view names t c c' :
  same_view c c' ->
  is_open c = true ->
  fst (migrate_table refuses names t c) = fst (migrate_table refuses names t c')
  /\ same_view (snd (migrate_table refuses names t c))
               (snd (migrate_table refuses names t c')).
Proof.
  intros Hv Hopen.
  assert (Hopen' : is_open c' = true) by (destruct Hv as [_ [<- _]]; exact Hopen).
  rewrite !migrate_table_eq by assumption.
  destruct (mem t names).
  2:{ split; [reflexivity | now apply same_view_put_line]. }
  pose proof Hv as [Hs _]. apply schema_same in Hs.
  destruct (find_table_related _ _ _ t same_schema_name Hs)
    as [[-> ->]|[T' [T [-> [-> [Hn Hc]]]]]].
  - split; [reflexivity | now apply same_view_attempted].
  - unfold has_project_id, rejects. rewrite Hn, Hc.
    destruct (mem "project_id" (map col_name (tbl_cols T'))).
    + split; [reflexivity|].
      now apply same_view_put_line, same_view_log_stmt.
    + destruct (has_column (col_name project_id) (tbl_cols T')
                || refuses (tbl_name T') (tbl_cols T')).
      * split; [reflexivity | now apply same_view_attempted].
      * split; [reflexivity|].
        unfold added. apply same_view_put_line, same_view_log_stmt.
        pose proof (same_view_attempted t _ _ Hv) as [_ [Ho [Hj Hl]]].
        repeat split; try assumption.
        cbn [db set_db]. apply schema_same.
        now apply update_table_same_schema.
Qed.

Lemma for_each_same_view names reqs c c' :
  same_view c c' ->
  in_run names c ->
  fst (for_each reqs (migrate_table refuses names) c)
  = fst (for_each reqs (migrate_table refuses names) c')
  /\ same_view (snd (for_each reqs (migrate_table refuses names) c))
               (snd (for_each reqs (migrate_table refuses names) c')).
Proof.
  revert c c'. induction reqs as [|t reqs IH]; intros c c' Hv Hc.
  - now split.
  - cbn [for_each]. rewrite !bind_run.
    pose proof (step_in_run names t c Hc) as H1.
    destruct (step_same_view names t c c' Hv (proj1 Hc)) as [Hf Hs].
    destruct (migrate_table refuses names t c) as [[u|e] c1];
      destruct (migrate_table refuses names t c') as [[u'|e'] c1'];
      cbn [fst snd] in *; try discriminate.
    + now apply IH.
    + now split.
Qed.

(** C10. Two runs started on stores of one schema, whatever rows the
    tables hold, end alike: both complete or both stop on the same error,
    they issue the same statements and print the same report, outcome by
    outcome, and they leave stores of one schema. *)
Theorem migrate_deterministic (d d' : Db) :
  schema d = schema d' ->
  fst (migrate refuses d) = fst (migrate refuses d') /\
  report (snd (migrate refuses d)) = report (snd (migrate refuses d')) /\
  journal (snd (migrate refuses d)) = journal (snd (migrate refuses d')) /\
  schema (db (snd (migrate refuses d))) = schema (db (snd (migrate refuses d'))).
Proof.
  intros Hs.
  assert (Hn : map tbl_name d = map tbl_name d').
  { assert (E : forall x, map tbl_name x = map fst (schema x)).
    { intros x. unfold schema. rewrite map_map. reflexivity. }
    now rewrite !E, Hs. }
  assert (Hv : same_view (started d) (started d')).
  { unfold started, connect.
    repeat split; cbn [db is_open journal stdout put_line log_stmt]; congruence. }
  rewrite !migrate_eq. rewrite <- Hn.
  destruct (for_each_same_view (map tbl_name d) tables_needing_project_id
              (started d) (started d') Hv (started_in_run d)) as [Hf Hl].
  destruct (for_each tables_needing_project_id
              (migrate_table refuses (map tbl_name d)) (started d))
    as [[u|e] c];
    destruct (for_each tables_needing_project_id
                (migrate_table refuses (map tbl_name d)) (started d'))
    as [[u'|e'] c']; cbn [fst snd] in *; try discriminate.
  - destruct Hl as [H1 [H2 [H3 H4]]]. unfold report.
    cbn [db is_open journal stdout put_line shut snd].
    repeat split; congruence.
  - destruct Hl as [H1 [H2 [H3 H4]]]. unfold report.
    repeat split; congruence.
Qed.

(** ** Closing the connection *)

Lemma steady_bind {A B} (m : M A) (f : A -> M B) :
  steady m -> (forall a, steady (f a)) -> steady (bind m f).
Proof.
  intros Hm Hf c. unfold bind. specialize (Hm c).
  destruct (m c) as [[a|e] c1]; cbn [snd] in *; [|assumption].
  destruct (Hf a c1) as [H1 H2]. destruct Hm as [H3 H4].
  split; congruence.
Qed.

Lemma steady_execute s : steady (execute s).
Proof. intros c. unfold execute. destruct (is_open c) eqn:E; now split. Qed.

Lemma steady_print l : steady (print l).
Proof. intros c. now split. Qed.

Lemma steady_for_each {A} (l : list A) (f : A -> M unit) :
  (forall a, steady (f a)) -> steady (for_each l f).
Proof.
  intros Hf. induction l as [|x l IH]; cbn [for_each].
  - intros c. now split.
  - apply steady_bind; [apply Hf | intros _; exact IH].
Qed.

Lemma steady_table_info t : steady (table_info t).
Proof.
  apply steady_bind; [apply steady_execute|].
  intros _ c. destruct (find_table t (db c)); now split.
Qed.

Lemma steady_select_tables : steady select_tables.
Proof.
  apply steady_bind; [apply steady_execute|]. intros _ c. now split.
Qed.

Lemma steady_count_rows t : steady (count_rows t).
Proof.
  apply steady_bind; [apply steady_execute|].
  intros _ c. destruct (find_table t (db c)); now split.
Qed.

Lemma steady_pragma_table_info t : steady (pragma_table_info views t).
Proof.
  intros c. unfold pragma_table_info.
  destruct (find_table t (db c)); [apply steady_table_info|].
  destruct (views t (db c)); [|apply steady_table_info].
  apply steady_bind; [apply steady_execute|]. intros _ c'. now split.
Qed.

Lemma steady_select_count t : steady (select_count views t).
Proof.
  intros c. unfold select_count.
  destruct (find_table t (db c)); [apply steady_count_rows|].
  destruct (views t (db c)); [|apply steady_count_rows].
  apply steady_bind; [apply steady_execute|]. intros _ c'. now split.
Qed.

Lemma steady_describe_table t : steady (describe_table bare views t).
Proof.
  unfold describe_table. apply steady_bind.
  - destruct (bare t); [apply steady_pragma_table_info|].
    apply steady_bind; [apply steady_execute|]. intros _ c. now split.
  - intros cols. apply steady_bind; [apply steady_print|]. intros _.
    apply steady_for_each. intros col. apply steady_print.
Qed.

Lemma steady_describe_tables : steady (describe_tables bare views).
Proof.
  unfold describe_tables. apply steady_bind; [apply steady_select_tables|].
  intros tables. apply steady_bind; [apply steady_print|]. intros _.
  apply steady_for_each. apply steady_describe_table.
Qed.

Lemma steady_count_memories : steady (count_memories views).
Proof.
  unfold count_memories. apply steady_bind; [apply steady_select_count|].
  intros n. apply steady_print.
Qed.

Lemma bind_assoc_run {A B C} (m : M A) (f : A -> M B) (g : B -> M C) c :
  bind (bind m f) g c = bind m (fun a => bind (f a) g) c.
Proof. unfold bind. destruct (m c) as [[a|e] c1]; reflexivity. Qed.

Lemma closes_after (m : M unit) c :
  steady m ->
  is_open (snd ((m ;; close) c))
  = match fst ((m ;; close) c) with
    | Ok _ => false
    | Raise _ => is_open c
    end.
Proof.
  intros Hs. unfold bind. destruct (Hs c) as [_ Ho].
  destruct (m c) as [[u|e] c1]; [reflexivity | exact Ho].
Qed.

(** C7, as the code has it.  Either script closes the connection when
    its run completes, and leaves it open when a statement fails: [close]
    is the last statement of the run and nothing catches the error on the
    way to it. *)
Theorem connection_closed_on_completion_only (d : Db) :
  is_open (snd (migrate refuses d))
  = match fst (migrate refuses d) with Ok _ => false | Raise _ => true end /\
  is_open (snd (check_schema bare views d))
  = match fst (check_schema bare views d) with
    | Ok _ => false
    | Raise _ => true
    end.
Proof.
  split.
  - rewrite migrate_eq.
    pose proof (for_each_in_run (map tbl_name d) tables_needing_project_id
                  (started d) (started_in_run d)) as [Hopen _].
    destruct (for_each tables_needing_project_id
                (migrate_table refuses (map tbl_name d)) (started d))
      as [[u|e] c]; [reflexivity | exact Hopen].
  - unfold check_schema.
    pose proof (bind_assoc_run (describe_tables bare views)
                  (fun _ => count_memories views)
                  (fun _ : unit => close) (connect d)) as E.
    cbv beta in E. rewrite <- E. apply closes_after.
    apply steady_bind; [apply steady_describe_tables|].
    intros _. apply steady_count_memories.
Qed.






(** ** The schema check *)

Lemma keeps_bind {A B} (P : Conn -> Prop) (m : M A) (f : A -> M B) :
  keeps P m -> (forall a, keeps P (f a)) -> keeps P (bind m f).
Proof.
  intros Hm Hf c Hc. unfold bind. specialize (Hm c Hc).
  destruct (m c) as [[a|e] c1]; cbn [snd] in *; [now apply Hf | assumption].
Qed.

Lemma keeps_for_each {A} (P : Conn -> Prop) (l : list A) (f : A -> M unit) :
  (forall a, keeps P (f a)) -> keeps P (for_each l f).
Proof.
  intros Hf. induction l as [|x l IH]; cbn [for_each].
  - intros c Hc. exact Hc.
  - apply keeps_bind; [apply Hf | intros _; exact IH].
Qed.

Lemma reads_execute s : is_read s = true -> keeps reads_only (execute s).
Proof.
  intros Hs c Hc. unfold execute. destruct (is_open c); [|exact Hc].
  unfold reads_only in *. cbn. apply Forall_app. split; [exact Hc|].
  now constructor.
Qed.

Lemma reads_print l : keeps reads_only (print l).
Proof. intros c Hc. exact Hc. Qed.

Lemma reads_table_info t : keeps reads_only (table_info t).
Proof.
  apply keeps_bind; [now apply reads_execute|].
  intros _ c Hc. now destruct (find_table t (db c)).
Qed.

Lemma reads_pragma_table_info t : keeps reads_only (pragma_table_info views t).
Proof.
  intros c. unfold pragma_table_info.
  destruct (find_table t (db c)); [apply reads_table_info|].
  destruct (views t (db c)); [|apply reads_table_info].
  apply keeps_bind; [now apply reads_execute|]. intros _ c' Hc'. exact Hc'.
Qed.

Lemma reads_describe_table t : keeps reads_only (describe_table bare views t).
Proof.
  unfold describe_table. apply keeps_bind.
  - destruct (bare t); [apply reads_pragma_table_info|].
    apply keeps_bind; [now apply reads_execute|]. intros _ c Hc. exact Hc.
  - intros cols. apply keeps_bind; [apply reads_print|]. intros _.
    apply keeps_for_each. intros col. apply reads_print.
Qed.

Lemma reads_describe_tables : keeps reads_only (describe_tables bare views).
Proof.
  unfold describe_tables, select_tables.
  apply keeps_bind.
  - apply keeps_bind; [now apply reads_execute|]. intros _ c Hc. exact Hc.
  - intros tables. apply keeps_bind; [apply reads_print|]. intros _.
    apply keeps_for_each. apply reads_describe_table.
Qed.

Lemma reads_select_count t : keeps reads_only (select_count views t).
Proof.
  intros c. unfold select_count.
  assert (H : keeps reads_only (count_rows t)).
  { apply keeps_bind; [now apply reads_execute|].
    intros _ c' Hc'. now destruct (find_table t (db c')). }
  destruct (find_table t (db c)); [apply H|].
  destruct (views t (db c)); [|apply H].
  apply keeps_bind; [now apply reads_execute|]. intros _ c' Hc'. exact Hc'.
Qed.

Lemma reads_count_memories : keeps reads_only (count_memories views).
Proof.
  unfold count_memories. apply keeps_bind; [apply reads_select_count|].
  intros n. apply reads_print.
Qed.

Lemma check_schema_run d :
  check_schema bare views d
  = ((describe_tables bare views ;; count_memories views) ;; close) (connect d).
Proof.
  unfold check_schema.
  pose proof (bind_assoc_run (describe_tables bare views)
                (fun _ => count_memories views)
                (fun _ : unit => close) (connect d)) as E.
  cbv beta in E. now rewrite <- E.
Qed.

(** X1. The schema check only reads: whatever the store and however the
    run ends, the store is afterwards what it was, tables, columns and
    rows, and every statement issued is a table listing, a column listing
    or a row count. *)
Theorem check_schema_reads_only (d : Db) :
  db (snd (check_schema bare views d)) = d /\
  reads_only (snd (check_schema bare views d)).
Proof.
  rewrite check_schema_run.
  assert (Hs : steady (describe_tables bare views ;; count_memories views)).
  { apply steady_bind; [apply steady_describe_tables|].
    intros _. apply steady_count_memories. }
  assert (Hr : keeps reads_only
                 (describe_tables bare views ;; count_memories views)).
  { apply keeps_bind; [apply reads_describe_tables|].
    intros _. apply reads_count_memories. }
  destruct (Hs (connect d)) as [Hdb _].
  specialize (Hr (connect d) (Forall_nil _)).
  rewrite (bind_run (describe_tables bare views ;; count_memories views)
             (fun _ => close) (connect d)).
  destruct ((describe_tables bare views ;; count_memories views) (connect d))
    as [[u|e] c]; unfold close; cbn [snd db connect shut] in *;
    unfold reads_only in *; cbn [journal shut]; now split.
Qed.

Lemma put_lines_put_line l ls c :
  put_lines ls (put_line l c) = put_lines (l :: ls) c.
Proof. unfold put_lines, put_line. cbn. now rewrite <- app_assoc. Qed.

Lemma put_lines_nil c : put_lines [] c = c.
Proof. destruct c. unfold put_lines. cbn. now rewrite app_nil_r. Qed.

Lemma put_lines_app l1 l2 c :
  put_lines l2 (put_lines l1 c) = put_lines (l1 ++ l2) c.
Proof. unfold put_lines. cbn. now rewrite app_assoc. Qed.











(** ** How a run of the migration ends *)

Lemma blocked_along d0 d t :
  Forall2 (migrated_table refuses) d0 d ->
  blocked refuses d t = blocked refuses d0 t.
Proof.
  intros F. unfold blocked. rewrite (migrated_names _ _ F).
  destruct (find_table_related _ _ _ t migrated_table_name F)
    as [[-> ->]|[T0 [T [-> [-> [->|[-> [HP HR]]]]]]]]; try reflexivity.
  now rewrite has_project_id_add, HP, HR.
Qed.

Lemma step_blocked t c :
  is_open c = true ->
  match fst (migrate_table refuses (map tbl_name (db c)) t c) with
  | Ok _ => blocked refuses (db c) t = false
  | Raise e =>
      blocked refuses (db c) t = true /\
      e = SchemaChangeRejected t "project_id"
  end.
Proof.
  intros Hopen. unfold blocked.
  destruct (step_cases t c Hopen) as [Ha|T Hm HT HP|T Hm HT HP HR|T Hm HT HP HR];
    cbn [fst]; rewrite ?Ha, ?Hm, ?HT, ?HP, ?HR; now try split.
Qed.

Lemma for_each_result d0 names reqs c :
  in_run names c ->
  Forall2 (migrated_table refuses) d0 (db c) ->
  fst (for_each reqs (migrate_table refuses names) c) =
  match find (blocked refuses d0) reqs with
  | Some t => Raise (SchemaChangeRejected t "project_id")
  | None => Ok tt
  end.
Proof.
  revert c. induction reqs as [|t reqs IH]; intros c Hc H0; [reflexivity|].
  cbn [for_each find]. rewrite bind_run.
  pose proof (step_in_run names t c Hc) as H1.
  pose proof (step_migrated names t c Hc) as H2.
  pose proof Hc as [Hopen Hn]. subst names.
  pose proof (step_blocked t c Hopen) as H3.
  rewrite (blocked_along _ _ t H0) in H3.
  destruct (migrate_table refuses (map tbl_name (db c)) t c) as [[u|e] c1];
    cbn [fst snd] in *.
  - rewrite H3. apply IH; [assumption|].
    apply Forall2_transitive with (l2 := db c);
      [apply migrated_table_trans | assumption..].
  - destruct H3 as [-> ->]. reflexivity.
Qed.


Lemma stuck_blocked t d : stuck refuses t d -> blocked refuses d t = true.
Proof.
  intros [Hm [T [HT [HP HR]]]]. unfold blocked. now rewrite Hm, HT, HP, HR.
Qed.

Lemma calm_settled reqs d :
  calm refuses reqs d ->
  (forall t, In t reqs -> blocked refuses d t = false) ->
  forall t, In t reqs -> settled t d.
Proof.
  induction reqs as [|u reqs IH]; intros Hc Hb t Ht; [destruct Ht|].
  cbn [calm] in Hc. destruct Hc as [[Hu Hc]|Hs].
  - destruct Ht as [<-|Ht]; [exact Hu|].
    apply IH; try assumption. intros x Hx. apply Hb. now right.
  - apply stuck_blocked in Hs. rewrite Hb in Hs by now left. discriminate.
Qed.

(** X5. After a run of the migration that completes, every table of the
    list that exists in the store has a column named [project_id]. *)
Theorem migrate_completed_has_column (d : Db) (t : string) :
  fst (migrate refuses d) = Ok tt ->
  In t tables_needing_project_id ->
  mem t (map tbl_name d) = true ->
  exists T, find_table t (db (snd (migrate refuses d))) = Some T /\
            has_project_id T = true.
Proof.
  intros Hok Ht Hm.
  pose proof (migrate_migrated d) as F.
  assert (Hcalm : calm refuses tables_needing_project_id
                    (db (snd (migrate refuses d)))).
  { rewrite migrate_eq.
    pose proof (for_each_leaves_calm (map tbl_name d)
                  tables_needing_project_id (started d) (started_in_run d)) as H.
    destruct (for_each tables_needing_project_id
                (migrate_table refuses (map tbl_name d)) (started d))
      as [[u|e] c]; exact H. }
  assert (Hfree : forall u, In u tables_needing_project_id ->
                    blocked refuses (db (snd (migrate refuses d))) u = false).
  { intros u Hu. rewrite (blocked_along _ _ u F).
    pose proof (for_each_result d (map tbl_name d) tables_needing_project_id
                  (started d) (started_in_run d)) as H.
    rewrite migrate_eq in Hok.
    destruct (for_each tables_needing_project_id
                (migrate_table refuses (map tbl_name d)) (started d))
      as [[[]|e] c]; cbn [fst] in *; [|discriminate].
    destruct (find (blocked refuses d) tables_needing_project_id) eqn:E.
    - assert (Ok tt = Raise (SchemaChangeRejected s "project_id") :> Result unit).
      { apply H. apply Forall2_reflexive. intros x. now left. }
      discriminate.
    - now apply (find_none _ _ E). }
  destruct (calm_settled _ _ Hcalm Hfree t Ht) as [Ha|HT]; [|exact HT].
  rewrite (migrated_names _ _ F) in Ha. congruence.
Qed.

(** ** The statements and the report of a run *)

Lemma step_accounted t c :
  is_open c = true ->
  exists os,
    report (snd (migrate_table refuses (map tbl_name (db c)) t c))
    = report c ++ os /\
    journal (snd (migrate_table refuses (map tbl_name (db c)) t c))
    = journal c ++ flat_map stmts_of os ++
      stmts_of_failure (fst (migrate_table refuses (map tbl_name (db c)) t c)) /\
    (forall u, fst (migrate_table refuses (map tbl_name (db c)) t c) = Ok u ->
       os = [(t, plan (db c) t)]) /\
    (forall e, fst (migrate_table refuses (map tbl_name (db c)) t c) = Raise e ->
       os = []).
Proof.
  intros Hopen. unfold plan.
  destruct (step_cases t c Hopen) as [Ha|T Hm HT HP|T Hm HT HP HR|T Hm HT HP HR];
    cbn [fst snd]; rewrite ?Ha, ?Hm, ?HT, ?HP.
  - exists [(t, TableAbsent)]. repeat split; try discriminate.
    + now rewrite report_put_line.
    + cbn. now rewrite app_nil_r.
  - exists [(t, AlreadyPresent)]. repeat split; try discriminate.
    now rewrite report_put_line.
  - exists [(t, Added)]. repeat split; try discriminate.
    + apply report_added.
    + apply journal_added.
  - exists []. repeat split; try discriminate.
    + rewrite report_attempted. now rewrite app_nil_r.
    + apply journal_attempted.
Qed.

Lemma for_each_accounted names reqs c :
  in_run names c ->
  exists os,
    report (snd (for_each reqs (migrate_table refuses names) c))
    = report c ++ os /\
    journal (snd (for_each reqs (migrate_table refuses names) c))
    = journal c ++ flat_map stmts_of os ++
      stmts_of_failure (fst (for_each reqs (migrate_table refuses names) c)).
Proof.
  revert c. induction reqs as [|t reqs IH]; intros c Hc.
  - exists []. cbn. now rewrite !app_nil_r.
  - cbn [for_each]. rewrite bind_run.
    pose proof (step_in_run names t c Hc) as H1.
    pose proof Hc as [Hopen Hn]. subst names.
    destruct (step_accounted t c Hopen) as [os [Hr [Hj _]]].
    destruct (migrate_table refuses (map tbl_name (db c)) t c) as [[u|e] c1];
      cbn [fst snd] in *.
    + destruct (IH c1 H1) as [os' [Hr' Hj']].
      exists (os ++ os'). split.
      * now rewrite Hr', Hr, app_assoc.
      * rewrite Hj', Hj, flat_map_app. cbn [stmts_of_failure].
        now rewrite app_nil_r, !app_assoc.
    + exists os. now split.
Qed.

Lemma migrate_journal_eq (d : Db) :
  journal (snd (migrate refuses d)) =
  SelectTables :: flat_map stmts_of (report (snd (migrate refuses d))) ++
  stmts_of_failure (fst (migrate refuses d)).
Proof.
  rewrite migrate_eq.
  destruct (for_each_accounted (map tbl_name d) tables_needing_project_id
              (started d) (started_in_run d)) as [os [Hr Hj]].
  destruct (for_each tables_needing_project_id
              (migrate_table refuses (map tbl_name d)) (started d))
    as [[u|e] c]; cbn [fst snd] in *.
  - assert (E : report (put_line LComplete (shut c)) = report c).
    { rewrite report_put_line by discriminate. cbn [outcomes].
      now rewrite app_nil_r. }
    rewrite E. cbn [journal put_line shut]. rewrite Hj, Hr. reflexivity.
  - rewrite Hj, Hr. reflexivity.
Qed.


(** ** The outcomes a store calls for *)

Lemma find_table_update_other t u f d :
  (forall T, tbl_name (f T) = tbl_name T) ->
  same_name t u = false ->
  find_table u (update_table t f d) = find_table u d.
Proof.
  intros Hf Htu. induction d as [|T d IH]; simpl; [reflexivity|].
  destruct (same_name (tbl_name T) t) eqn:Et; simpl.
  - rewrite Hf. rewrite (same_name_trans _ _ u Et), Htu. reflexivity.
  - destruct (same_name (tbl_name T) u); [reflexivity | exact IH].
Qed.

Lemma step_find_other t u c :
  is_open c = true ->
  same_name t u = false ->
  find_table u (db (snd (migrate_table refuses (map tbl_name (db c)) t c)))
  = find_table u (db c).
Proof.
  intros Hopen Htu.
  destruct (step_cases t c Hopen); cbn; try reflexivity.
  now apply find_table_update_other.
Qed.

Lemma for_each_planned d0 names reqs c :
  in_run names c ->
  map tbl_name d0 = names ->
  distinct_names reqs = true ->
  (forall u, In u reqs -> find_table u (db c) = find_table u d0) ->
  report (snd (for_each reqs (migrate_table refuses names) c))
  = report c ++ map (fun t => (t, plan d0 t)) (before_blocked refuses d0 reqs).
Proof.
  revert c. induction reqs as [|t reqs IH]; intros c Hc Hd0 Hdis Hfind.
  - cbn. now rewrite app_nil_r.
  - cbn [for_each before_blocked]. rewrite bind_run.
    cbn [distinct_names] in Hdis. apply andb_true_iff in Hdis.
    destruct Hdis as [Ht Hdis]. rewrite forallb_forall in Ht.
    pose proof (step_in_run names t c Hc) as H1.
    pose proof Hc as [Hopen Hn]. revert Hd0. subst names. intros Hd0.
    assert (Hb : blocked refuses d0 t = blocked refuses (db c) t).
    { unfold blocked. now rewrite Hd0, (Hfind t (or_introl eq_refl)). }
    assert (Hp : plan d0 t = plan (db c) t).
    { unfold plan. now rewrite Hd0, (Hfind t (or_introl eq_refl)). }
    pose proof (step_blocked t c Hopen) as H3.
    destruct (step_accounted t c Hopen) as [os [Hr [_ [Hok Hraise]]]].
    assert (Hrest : forall u, In u reqs ->
              find_table u
                (db (snd (migrate_table refuses (map tbl_name (db c)) t c)))
              = find_table u d0).
    { intros u Hu. rewrite step_find_other; [now apply Hfind; right | assumption|].
      specialize (Ht u Hu). now apply negb_true_iff in Ht. }
    destruct (migrate_table refuses (map tbl_name (db c)) t c) as [[x|e] c1];
      cbn [fst snd] in *.
    + rewrite Hb, H3. rewrite (IH c1 H1 Hd0 Hdis Hrest).
      rewrite Hr, (Hok x eq_refl), <- Hp, <- app_assoc. reflexivity.
    + destruct H3 as [H3 _]. rewrite Hb, H3.
      rewrite Hr, (Hraise e eq_refl). reflexivity.
Qed.

(** X7. The report of a run of the migration can be told from the store
    it starts on.  It has one outcome for each requirement of the list, in
    order, up to the first requirement the store rejects: [table-absent]
    when no table has that name, [already-present] when the table has a
    column named [project_id], [added] otherwise. *)
Theorem migrate_report_planned (d : Db) :
  report (snd (migrate refuses d)) =
  map (fun t => (t, plan d t))
      (before_blocked refuses d tables_needing_project_id).
Proof.
  rewrite migrate_eq.
  pose proof (for_each_planned d (map tbl_name d) tables_needing_project_id
                (started d) (started_in_run d) eq_refl eq_refl
                (fun u _ => eq_refl)) as H.
  destruct (for_each tables_needing_project_id
              (migrate_table refuses (map tbl_name d)) (started d))
    as [[u|e] c]; cbn [snd] in *.
  - rewrite report_put_line by discriminate. cbn [outcomes].
    rewrite app_nil_r. exact H.
  - exact H.
Qed.

(** ** The tables a run leaves alone *)

Lemma Forall2_compose {A} (P Q S : A -> A -> Prop) :
  (forall x y z, P x y -> Q y z -> S x z) ->
  forall l1 l2 l3, Forall2 P l1 l2 -> Forall2 Q l2 l3 -> Forall2 S l1 l3.
Proof.
  intros H l1 l2 l3 H12. revert l3.
  induction H12 as [|x y l1 l2 Hxy H12 IH]; intros l3 H23;
    inversion H23; subst; constructor; eauto.
Qed.

Lemma update_table_touches t f d :
  Forall2 (fun T T' => T' = T \/ same_name (tbl_name T) t = true)
    d (update_table t f d).
Proof.
  induction d as [|T d IH]; simpl; [constructor|].
  destruct (same_name (tbl_name T) t) eqn:E.
  - constructor; [now right|]. apply Forall2_reflexive. intros x. now left.
  - constructor; [now left | exact IH].
Qed.

Lemma for_each_touches names reqs c :
  in_run names c ->
  Forall2 (fun T T' => T' = T \/ unlisted reqs T = false)
    (db c) (db (snd (for_each reqs (migrate_table refuses names) c))).
Proof.
  revert c. induction reqs as [|t reqs IH]; intros c Hc.
  - apply Forall2_reflexive. intros x. now left.
  - cbn [for_each]. rewrite bind_run.
    pose proof (step_in_run names t c Hc) as H1.
    assert (H2 : Forall2 (fun T T' => T' = T \/ same_name (tbl_name T) t = true)
                   (db c) (db (snd (migrate_table refuses names t c)))).
    { destruct Hc as [Hopen Hn]. subst names.
      destruct (step_cases t c Hopen); cbn;
        try (apply Forall2_reflexive; intros x; now left).
      apply update_table_touches. }
    destruct (migrate_table refuses names t c) as [[u|e] c1]; cbn [snd] in *.
    + apply Forall2_compose
        with (P := fun T T' => T' = T \/ same_name (tbl_name T) t = true)
             (Q := fun T T' => T' = T \/ unlisted reqs T = false)
             (l2 := db c1); [|exact H2|exact (IH c1 H1)].
      intros T T1 T' [->|E].
      * intros [->|E']; [now left | right].
        unfold unlisted in *. cbn. now rewrite E', andb_false_r.
      * intros _. right. unfold unlisted. cbn. now rewrite E.
    + apply Forall2_weaken with (2 := H2).
      intros T T' [->|E]; [now left | right].
      unfold unlisted. cbn. now rewrite E.
Qed.

(** X8. A table that none of the five names of the list resolves to is
    left as it is by a run of the migration, columns and rows, whether or
    not it has a column [project_id]. *)
Theorem migrate_leaves_unlisted (d : Db) (i : nat) (T : Table) :
  nth_error d i = Some T ->
  unlisted tables_needing_project_id T = true ->
  nth_error (db (snd (migrate refuses d))) i = Some T.
Proof.
  intros Hi Hu.
  assert (F : Forall2 (fun T T' => T' = T \/
                         unlisted tables_needing_project_id T = false)
                d (db (snd (migrate refuses d)))).
  { rewrite migrate_eq.
    pose proof (for_each_touches (map tbl_name d) tables_needing_project_id
                  (started d) (started_in_run d)) as H.
    destruct (for_each tables_needing_project_id
                (migrate_table refuses (map tbl_name d)) (started d))
      as [[u|e] c]; exact H. }
  destruct (Forall2_nth_error _ _ _ F i T Hi) as [T' [Hi' [->|E]]].
  - exact Hi'.
  - congruence.
Qed.

(** ** A store with none of the tables *)

Lemma for_each_absent names reqs c :
  forallb (fun t => negb (mem t names)) reqs = true ->
  for_each reqs (migrate_table refuses names) c
  = (Ok tt, put_lines (map LAbsent reqs) c).
Proof.
  revert c. induction reqs as [|t reqs IH]; intros c H; cbn [for_each map].
  - now rewrite put_lines_nil.
  - cbn [forallb] in H. apply andb_true_iff in H. destruct H as [Ht H].
    apply negb_true_iff in Ht. rewrite bind_run.
    unfold migrate_table at 1. rewrite Ht. unfold print at 1.
    rewrite (IH _ H). now rewrite put_lines_put_line.
Qed.

(** X9. On a store that has none of the five tables, the empty store for
    one, a run of the migration completes with the table listing as its
    only statement: the store is not touched, the report is
    [table-absent] five times, and the connection is closed. *)
Theorem migrate_nothing_to_do (d : Db) :
  forallb (fun t => negb (mem t (map tbl_name d))) tables_needing_project_id
  = true ->
  migrate refuses d =
  (Ok tt,
   {| db := d; is_open := false; journal := [SelectTables];
      stdout := LTables (map tbl_name d) ::
                map LAbsent tables_needing_project_id ++ [LComplete] |}).
Proof.
  intros H. rewrite migrate_eq, (for_each_absent _ _ _ H). reflexivity.
Qed.

(** ** The migration, then the schema check *)




(** ** Running the migration again *)

Lemma find_all_false {A} (f : A -> bool) l :
  (forall x, In x l -> f x = false) -> find f l = None.
Proof.
  induction l as [|x l IH]; intros H; cbn; [reflexivity|].
  rewrite (H x (or_introl eq_refl)). apply IH. intros y Hy. apply H. now right.
Qed.

Lemma quiet_reads os :
  Forall quiet os -> Forall (fun s => is_read s = true) (flat_map stmts_of os).
Proof.
  induction 1 as [|[t o] os [Ho|Ho] _ IH]; cbn in *; [constructor| |];
    subst o; cbn; [constructor; [reflexivity|exact IH] | exact IH].
Qed.

Lemma migrate_again_quiet d :
  Forall quiet (report (snd (migrate refuses (db (snd (migrate refuses d)))))).
Proof.
  set (once := db (snd (migrate refuses d))).
  assert (Hcalm : calm refuses tables_needing_project_id once).
  { unfold once. rewrite migrate_eq.
    pose proof (for_each_leaves_calm (map tbl_name d)
                  tables_needing_project_id (started d) (started_in_run d)) as H.
    destruct (for_each tables_needing_project_id
                (migrate_table refuses (map tbl_name d)) (started d))
      as [[u|e] c]; exact H. }
  rewrite migrate_eq.
  destruct (calm_for_each (map tbl_name once) tables_needing_project_id
              (started once) (started_in_run once) Hcalm) as [_ Hq].
  { constructor. }
  destruct (for_each tables_needing_project_id
              (migrate_table refuses (map tbl_name once)) (started once))
    as [[u|e] c]; cbn [snd] in *; [|exact Hq].
  rewrite report_put_line by discriminate. cbn. now rewrite app_nil_r.
Qed.

(** X11. After a run of the migration that completes, a second run on
    the store it left completes too, and it only reads: its statements are
    the table listing and column listings, no change and no commit. *)
Theorem migrate_again_reads_only (d : Db) :
  fst (migrate refuses d) = Ok tt ->
  fst (migrate refuses (db (snd (migrate refuses d)))) = Ok tt /\
  reads_only (snd (migrate refuses (db (snd (migrate refuses d))))).
Proof.
  intros Hok.
  pose proof (migrate_migrated d) as F.
  assert (Hfirst : find (blocked refuses d) tables_needing_project_id = None).
  { pose proof (for_each_result d (map tbl_name d) tables_needing_project_id
                  (started d) (started_in_run d)) as H.
    rewrite migrate_eq in Hok.
    destruct (for_each tables_needing_project_id
                (migrate_table refuses (map tbl_name d)) (started d))
      as [[[]|e] c]; cbn [fst] in *; [|discriminate].
    destruct (find (blocked refuses d) tables_needing_project_id) eqn:E;
      [|reflexivity].
    assert (Ok tt = Raise (SchemaChangeRejected s "project_id") :> Result unit).
    { apply H. apply Forall2_reflexive. intros x. now left. }
    discriminate. }
  set (once := db (snd (migrate refuses d))) in *.
  assert (Hsecond : fst (migrate refuses once) = Ok tt).
  { rewrite migrate_eq.
    pose proof (for_each_result once (map tbl_name once)
                  tables_needing_project_id (started once)
                  (started_in_run once)) as H.
    rewrite (find_all_false (blocked refuses once)) in H.
    - destruct (for_each tables_needing_project_id
                  (migrate_table refuses (map tbl_name once)) (started once))
        as [[[]|e] c]; cbn [fst] in *; [reflexivity|].
      apply H. apply Forall2_reflexive. intros x. now left.
    - intros u Hu. rewrite (blocked_along _ _ u F).
      now apply (find_none _ _ Hfirst). }
  split; [exact Hsecond|].
  unfold reads_only. rewrite migrate_journal_eq, Hsecond.
  cbn [stmts_of_failure]. rewrite app_nil_r.
  constructor; [reflexivity|]. apply quiet_reads, migrate_again_quiet.
Qed.


End Properties.

(** ** The properties on the sample stores *)

Lemma migrate_decides_by_name_witness :
  nth_error (db (snd (migrate no_refusal store_v1))) 1 = Some entities_v1.
Proof.
  apply (migrate_decides_by_name no_refusal store_v1 1 entities_v1).
  - reflexivity.
  - cbn. right. left. reflexivity.
Defined.

Lemma migrate_requirement_outcome_witness :
  report (snd (migrate_upto no_refusal 1 (connect store_v1)))
  = [("memories", Added)].
Proof.
  destruct (migrate_requirement_outcome no_refusal store_v1 0 "memories"
              (started store_v1) eq_refl eq_refl) as [_ [_ [_ H]]].
  destruct (H eq_refl) as [T [HT [_ Hadd]]].
  injection HT as <-.
  destruct (Hadd eq_refl eq_refl) as [_ [Hr _]].
  exact Hr.
Defined.

Lemma migrate_stops_at_rejection_witness :
  db (snd (migrate no_refusal store_mixed_case))
  = db (snd (migrate_upto no_refusal 2 (connect store_mixed_case))).
Proof.
  destruct (migrate_stops_at_rejection no_refusal store_mixed_case 2 "edges"
              (snd (migrate_upto no_refusal 2 (connect store_mixed_case)))
              edges_mixed_case eq_refl eq_refl eq_refl eq_refl eq_refl eq_refl)
    as [Hrun [Hdb _]].
  rewrite Hrun. exact Hdb.
Defined.

Lemma migrate_default_propagation_witness :
  exists T',
    find_table "memories" (db (snd (migrate no_refusal store_v1))) = Some T' /\
    forall j r, nth_error (tbl_rows memories_v1) j = Some r ->
      read_column (tbl_cols T') (r ++ [VText "global"]) "project_id"
      = Some (VText "global").
Proof.
  assert (Hwf : Forall well_formed store_v1).
  { repeat constructor. }
  assert (Hin : In ("memories", Added)
                   (report (snd (migrate no_refusal store_v1)))).
  { left. reflexivity. }
  destruct (migrate_default_propagation no_refusal store_v1 "memories" Hwf Hin)
    as [T [T' [HT [HT' [_ Hrows]]]]].
  injection HT as <-.
  exists T'. split; [exact HT'|].
  intros j r Hr. exact (proj2 (Hrows j r Hr)).
Defined.

Lemma migrate_deterministic_witness :
  report (snd (migrate no_refusal store_v1))
  = report (snd (migrate no_refusal store_v1_empty)).
Proof.
  exact (proj1 (proj2 (migrate_deterministic no_refusal store_v1
                         store_v1_empty eq_refl))).
Defined.


(** ** Where the code departs from the specification *)

(** C1 as stated fails.  In [store_mixed_case] the table [edges] exists
    and none of its columns is named [project_id] for the script, the
    store rejects the change, and the run ends with no outcome for
    [edges] nor for [entity_relations]. *)
Lemma rejected_requirement_has_no_outcome :
  mem "edges" (map tbl_name store_mixed_case) = true /\
  find_table "edges" store_mixed_case = Some edges_mixed_case /\
  has_project_id edges_mixed_case = false /\
  report (snd (migrate no_refusal store_mixed_case))
  = [("memories", Added); ("entities", AlreadyPresent)] /\
  ~ (forall t, In t tables_needing_project_id ->
       exists o, In (t, o) (report (snd (migrate no_refusal store_mixed_case)))).
Proof.
  repeat split.
  intros H. destruct (H "edges") as [o Ho].
  - cbn. tauto.
  - cbn in Ho. destruct Ho as [Ho|[Ho|[]]]; discriminate.
Qed.

(** C3 as stated fails.  On [store_mixed_case] the rejection at [edges]
    ends the run with the error: nothing is issued for
    [entity_relations], the requirement after it, whose table is left
    without the column. *)
Lemma rejection_ends_the_run :
  fst (migrate no_refusal store_mixed_case)
  = Raise (SchemaChangeRejected "edges" "project_id") /\
  ~ In (TableInfo "entity_relations")
       (journal (snd (migrate no_refusal store_mixed_case))) /\
  find_table "entity_relations" (db (snd (migrate no_refusal store_mixed_case)))
  = Some entity_relations_v1 /\
  has_project_id entity_relations_v1 = false.
Proof.
  repeat split.
  cbn. intros H.
  repeat (destruct H as [H|H]; [discriminate|]). exact H.
Qed.


(** C7 as stated fails.  The migration stopped by a rejection and the
    schema check stopped by the missing [memories] table both leave the
    connection open. *)
Lemma connection_left_open_on_error :
  (fst (migrate no_refusal store_mixed_case)
   = Raise (SchemaChangeRejected "edges" "project_id") /\
   is_open (snd (migrate no_refusal store_mixed_case)) = true) /\
  (fst (check_schema Some no_views store_no_memories)
   = Raise (NoSuchTable "memories") /\
   is_open (snd (check_schema Some no_views store_no_memories)) = true).
Proof. repeat split. Qed.


Lemma migrate_completed_has_column_witness :
  exists T, find_table "edges" (db (snd (migrate no_refusal store_v1))) = Some T /\
            has_project_id T = true.
Proof.
  apply (migrate_completed_has_column no_refusal store_v1 "edges").
  - reflexivity.
  - cbn. tauto.
  - reflexivity.
Defined.

Lemma migrate_leaves_unlisted_witness :
  nth_error
    (db (snd (migrate no_refusal
               (mkTable "notes" [key] [[VInt 1]] :: store_v1)))) 0
  = Some (mkTable "notes" [key] [[VInt 1]]).
Proof.
  apply (migrate_leaves_unlisted no_refusal
           (mkTable "notes" [key] [[VInt 1]] :: store_v1) 0); reflexivity.
Defined.

Lemma migrate_nothing_to_do_witness :
  fst (migrate no_refusal []) = Ok tt.
Proof.
  rewrite (migrate_nothing_to_do no_refusal [] eq_refl). reflexivity.
Defined.


Lemma migrate_again_reads_only_witness :
  reads_only (snd (migrate no_refusal (db (snd (migrate no_refusal store_v1))))).
Proof.
  exact (proj2 (migrate_again_reads_only no_refusal store_v1 eq_refl)).
Defined.
